(** * Configuration form and HTML preview frame: a verified model

    Shallow embedding of [src/ConfigComponent.jsx] and
    [src/PreviewIframe.jsx].

    - JavaScript strings are sequences of UTF-16 code units ([jsstring]).
    - The regular expression of [extractRegionFromLambdaArn] is kept as a
      syntax tree and run by a backtracking matcher.
    - [JSON.stringify] / [JSON.parse] work on the text kept in
      [localStorage].
    - React state ([config], [errors]), [localStorage], the Amplify
      configuration and the calls made to the owner's callbacks are
      threaded through a small state-and-error monad. *)

From Stdlib Require Import Ascii NArith.
From stdpp Require Import base numbers list strings gmap.

Set Default Proof Using "Type".

(** ** JavaScript strings *)

(** A string value is the list of its UTF-16 code units. *)
Abbreviation jsstring := (list N) (only parsing).

Fixpoint bytes_of (s : string) : list N :=
  match s with
  | EmptyString => []
  | String a t => N_of_ascii a :: bytes_of t
  end.

(** Continuation byte payload of a UTF-8 sequence. *)
Definition cont6 (b : N) : N := N.land b 63.

(** Code units of one code point. *)
Definition utf16_encode (cp : N) : jsstring :=
  if (cp <? 65536)%N then [cp]
  else [(55296 + N.shiftr (cp - 65536) 10)%N; (56320 + N.land (cp - 65536) 1023)%N].

(** Decoding of the UTF-8 bytes of a source literal into code units, so that
    literals can be written as they stand in the source file. *)
Fixpoint utf16_of_utf8 (bs : list N) : jsstring :=
  match bs with
  | [] => []
  | b0 :: t =>
      if (b0 <? 128)%N then b0 :: utf16_of_utf8 t
      else if (b0 <? 224)%N then
        match t with
        | b1 :: t1 =>
            utf16_encode (N.lor (N.shiftl (N.land b0 31) 6) (cont6 b1))
              ++ utf16_of_utf8 t1
        | _ => []
        end
      else if (b0 <? 240)%N then
        match t with
        | b1 :: b2 :: t2 =>
            utf16_encode (N.lor (N.shiftl (N.land b0 15) 12)
                            (N.lor (N.shiftl (cont6 b1) 6) (cont6 b2)))
              ++ utf16_of_utf8 t2
        | _ => []
        end
      else
        match t with
        | b1 :: b2 :: b3 :: t3 =>
            utf16_encode (N.lor (N.shiftl (N.land b0 7) 18)
                            (N.lor (N.shiftl (cont6 b1) 12)
                               (N.lor (N.shiftl (cont6 b2) 6) (cont6 b3))))
              ++ utf16_of_utf8 t3
        | _ => []
        end
  end.

(** A string literal of the source. *)
Definition js (s : string) : jsstring := utf16_of_utf8 (bytes_of s).

(** ToBoolean on a string: only the empty string is falsy. *)
Definition truthy_string (s : jsstring) : bool :=
  match s with [] => false | _ => true end.

(** WhiteSpace and LineTerminator code points of ECMAScript: the characters
    [String.prototype.trim] strips. *)
Definition isLineTerminator (c : N) : bool :=
  ((c =? 10) || (c =? 13) || (c =? 8232) || (c =? 8233))%N.

Definition isWhiteSpace (c : N) : bool :=
  ((c =? 9) || (c =? 11) || (c =? 12) || (c =? 32) || (c =? 160)
   || (c =? 5760) || ((8192 <=? c) && (c <=? 8202))
   || (c =? 8239) || (c =? 8287) || (c =? 12288) || (c =? 65279))%N.

Definition isTrimmed (c : N) : bool := isWhiteSpace c || isLineTerminator c.

Fixpoint trimStart (s : jsstring) : jsstring :=
  match s with
  | c :: t => if isTrimmed c then trimStart t else s
  | [] => []
  end.

Definition trimEnd (s : jsstring) : jsstring := rev (trimStart (rev s)).

(** [String.prototype.trim]. *)
Definition trim (s : jsstring) : jsstring := trimEnd (trimStart s).

(** A field value that is empty or made of white space only. *)
Definition blank (s : jsstring) : bool := forallb isTrimmed s.

(** [s.split(":")]. *)
Fixpoint split_on (sep : N) (s : jsstring) : list jsstring :=
  match s with
  | [] => [[]]
  | c :: t =>
      if (c =? sep)%N then [] :: split_on sep t
      else match split_on sep t with
           | seg :: segs => (c :: seg) :: segs
           | [] => [[c]]
           end
  end.

Definition colon : N := 58%N.

Definition segments (s : jsstring) : list jsstring := split_on colon s.

(** ** Regular expressions *)

Module Regex.

(** The fragment of the pattern language that the source uses: literal
    text, a greedy [+] over a character set, a capture group, and the
    assertions [^] and [$] (no flags: code-unit matching, no multiline). *)
Inductive regex : Type :=
| Bol                                   (* ^ *)
| Eol                                   (* $ *)
| Lit (s : jsstring)                    (* literal characters *)
| PlusSet (p : N → bool)                (* [set]+ , greedy *)
| Group (r : regex)                     (* ( r ) *)
| Seq (r1 r2 : regex).

Record MatchState : Type := mkState {
  endIndex : nat;                       (* code units consumed so far *)
  rest : jsstring;                      (* input from endIndex on *)
  captures : list jsstring              (* groups closed so far *)
}.

Definition Continuation : Type := MatchState → option MatchState.

Fixpoint strip_prefix (p s : jsstring) : option jsstring :=
  match p, s with
  | [], _ => Some s
  | a :: p', b :: s' => if (a =? b)%N then strip_prefix p' s' else None
  | _ :: _, [] => None
  end.

(** One or more characters of [p], longest first, giving characters back
    to the continuation when it fails. *)
Fixpoint repeatSet (p : N → bool) (i : nat) (s : jsstring)
    (caps : list jsstring) (k : Continuation) : option MatchState :=
  match s with
  | c :: t =>
      if p c then
        match repeatSet p (S i) t caps k with
        | Some y => Some y
        | None => k (mkState (S i) t caps)
        end
      else None
  | [] => None
  end.

Fixpoint run (r : regex) (x : MatchState) (k : Continuation)
    : option MatchState :=
  match r with
  | Bol => if decide (endIndex x = 0) then k x else None
  | Eol => match rest x with [] => k x | _ :: _ => None end
  | Lit s =>
      match strip_prefix s (rest x) with
      | Some t => k (mkState (endIndex x + length s) t (captures x))
      | None => None
      end
  | PlusSet p => repeatSet p (endIndex x) (rest x) (captures x) k
  | Group r1 =>
      run r1 x (λ y,
        k (mkState (endIndex y) (rest y)
             (captures y ++ [take (endIndex y - endIndex x) (rest x)])))
  | Seq r1 r2 => run r1 x (λ y, run r2 y k)
  end.

(** The search loop of [RegExp.prototype.exec] for a pattern without the
    global or sticky flag: try every start index from 0 on. *)
Fixpoint search (r : regex) (i : nat) (s : jsstring) : option MatchState :=
  match run r (mkState i s []) Some with
  | Some y => Some y
  | None =>
      match s with
      | [] => None
      | _ :: t => search r (S i) t
      end
  end.

(** [str.match(r)]: [None] is [null], otherwise the captures
    ([match[1]], [match[2]], ...). *)
Definition str_match (s : jsstring) (r : regex) : option (list jsstring) :=
  captures <$> search r 0 s.

End Regex.

Import Regex.

Infix "⋅" := Seq (at level 41, right associativity).

(** [[a-z0-9-]] *)
Definition region_char (c : N) : bool :=
  (((97 <=? c) && (c <=? 122)) || ((48 <=? c) && (c <=? 57)) || (c =? 45))%N.

(** [\d] *)
Definition digit (c : N) : bool := ((48 <=? c) && (c <=? 57))%N.

(** [.] without the dotAll flag. *)
Definition dot (c : N) : bool := negb (isLineTerminator c).

(** [/^arn:aws:lambda:([a-z0-9-]+):\d+:function:.+$/] *)
Definition arnPattern : regex :=
  Bol ⋅ Lit (js "arn:aws:lambda:") ⋅ Group (PlusSet region_char) ⋅ Lit (js ":")
      ⋅ PlusSet digit ⋅ Lit (js ":function:") ⋅ PlusSet dot ⋅ Eol.

(** Extract region from Lambda ARN if it's a valid ARN. *)
Definition extractRegionFromLambdaArn (arn : jsstring) : jsstring :=
  match str_match arn arnPattern with
  | Some (m1 :: _) => if truthy_string m1 then m1 else []
  | _ => []
  end.

(** ** Outcomes of fallible steps *)

Inductive failure : Type :=
| SyntaxError            (* thrown by JSON.parse *)
| TypeError              (* property access on null, assignment to a primitive *)
| OutsideModel           (* a value this development does not represent:
                            a number, or stored data that is not of the
                            shape of a configuration *)
| OutOfFuel.             (* the bound on the nested calls of the parser was
                            reached; JSON.parse never reports it, see
                            parse_has_fuel *)

Inductive result (A : Type) : Type :=
| Ok (a : A)
| Fail (e : failure).
Arguments Ok {A} a.
Arguments Fail {A} e.

#[global] Instance result_ret : MRet result := λ A a, Ok a.
#[global] Instance result_bind : MBind result := λ A B f m,
  match m with Ok a => f a | Fail e => Fail e end.

(** ** JSON text *)

Module Json.

(** Values that [JSON.parse] builds, numbers apart.  An object keeps its
    properties in the order in which [JSON.stringify] and the spread
    operator enumerate them. *)
#[local] Unset Elimination Schemes.
Inductive json : Type :=
| JNull
| JBool (b : bool)
| JString (s : jsstring)
| JArray (l : list json)
| JObject (l : list (jsstring * json)).
#[local] Set Elimination Schemes.

(** *** JSON.stringify *)

Definition hexdigit (d : N) : N := if (d <? 10)%N then (48 + d)%N else (87 + d)%N.

(** [\uXXXX], lower-case hexadecimal. *)
Definition unicodeEscape (c : N) : jsstring :=
  [92%N; 117%N;
   hexdigit (N.land (N.shiftr c 12) 15); hexdigit (N.land (N.shiftr c 8) 15);
   hexdigit (N.land (N.shiftr c 4) 15); hexdigit (N.land c 15)].

Definition isLeadingSurrogate (c : N) : bool := ((55296 <=? c) && (c <=? 56319))%N.
Definition isTrailingSurrogate (c : N) : bool := ((56320 <=? c) && (c <=? 57343))%N.

(** QuoteJSONString on one code point that is a single code unit. *)
Definition quoteUnit (c : N) : jsstring :=
  if (c =? 8)%N then js "\b"
  else if (c =? 9)%N then js "\t"
  else if (c =? 10)%N then js "\n"
  else if (c =? 12)%N then js "\f"
  else if (c =? 13)%N then js "\r"
  else if (c =? 34)%N then [92%N; 34%N]
  else if (c =? 92)%N then js "\\"
  else if (c <? 32)%N || isLeadingSurrogate c || isTrailingSurrogate c
       then unicodeEscape c
  else [c].

(** The code points of the string are visited in turn: a surrogate pair is
    copied, a lone surrogate is escaped. *)
Fixpoint quoteChars (s : jsstring) : jsstring :=
  match s with
  | [] => []
  | c :: t =>
      if isLeadingSurrogate c then
        match t with
        | d :: t' =>
            if isTrailingSurrogate d then c :: d :: quoteChars t'
            else unicodeEscape c ++ quoteChars t
        | [] => unicodeEscape c
        end
      else quoteUnit c ++ quoteChars t
  end.

Definition quoteJSONString (s : jsstring) : jsstring :=
  34%N :: quoteChars s ++ [34%N].

Fixpoint join (sep : jsstring) (parts : list jsstring) : jsstring :=
  match parts with
  | [] => []
  | [x] => x
  | x :: l => x ++ sep ++ join sep l
  end.

Fixpoint stringify (v : json) : jsstring :=
  match v with
  | JNull => js "null"
  | JBool true => js "true"
  | JBool false => js "false"
  | JString s => quoteJSONString s
  | JArray l => js "[" ++ join (js ",") (map stringify l) ++ js "]"
  | JObject l =>
      js "{"
        ++ join (js ",")
             (map (λ '(k, x), quoteJSONString k ++ js ":" ++ stringify x) l)
        ++ js "}"
  end.

(** *** Property order of an object *)

Fixpoint decimal (acc : N) (s : jsstring) : N :=
  match s with
  | [] => acc
  | c :: t => decimal (10 * acc + (c - 48))%N t
  end.

(** A property key that is an array index (a canonical numeric string
    below 2^32 - 1): such keys are enumerated first, in numeric order. *)
Definition arrayIndex (k : jsstring) : option N :=
  match k with
  | [] => None
  | c :: t =>
      if forallb digit k && ((negb (c =? 48)%N) || bool_decide (t = [])) then
        let n := decimal 0 k in
        if (n <? 4294967295)%N then Some n else None
      else None
  end.

Fixpoint has_key (k : jsstring) (l : list (jsstring * json)) : bool :=
  match l with
  | [] => false
  | (k', _) :: l' => bool_decide (k' = k) || has_key k l'
  end.

Fixpoint replace_key (k : jsstring) (v : json) (l : list (jsstring * json))
    : list (jsstring * json) :=
  match l with
  | [] => []
  | (k', v') :: l' =>
      if bool_decide (k' = k) then (k', v) :: l' else (k', v') :: replace_key k v l'
  end.

Fixpoint insert_index (n : N) (k : jsstring) (v : json)
    (l : list (jsstring * json)) : list (jsstring * json) :=
  match l with
  | [] => [(k, v)]
  | (k', v') :: l' =>
      match arrayIndex k' with
      | Some m =>
          if (m <? n)%N then (k', v') :: insert_index n k v l' else (k, v) :: l
      | None => (k, v) :: l
      end
  end.

(** [o[k] = v] on an ordinary object. *)
Definition set_property (l : list (jsstring * json)) (k : jsstring) (v : json)
    : list (jsstring * json) :=
  if has_key k l then replace_key k v l
  else match arrayIndex k with
       | Some n => insert_index n k v l
       | None => l ++ [(k, v)]
       end.

(** [o[k]]; [None] is [undefined]. *)
Fixpoint get_property (l : list (jsstring * json)) (k : jsstring) : option json :=
  match l with
  | [] => None
  | (k', v) :: l' => if bool_decide (k' = k) then Some v else get_property l' k
  end.

(** *** JSON.parse *)

Definition isJsonWhiteSpace (c : N) : bool :=
  ((c =? 9) || (c =? 10) || (c =? 13) || (c =? 32))%N.

Fixpoint skip_ws (s : jsstring) : jsstring :=
  match s with
  | c :: t => if isJsonWhiteSpace c then skip_ws t else s
  | [] => []
  end.

Definition hexval (c : N) : option N :=
  if ((48 <=? c) && (c <=? 57))%N then Some (c - 48)%N
  else if ((97 <=? c) && (c <=? 102))%N then Some (c - 87)%N
  else if ((65 <=? c) && (c <=? 70))%N then Some (c - 55)%N
  else None.

Definition hex4 (a b c d : N) : option N :=
  x3 ← hexval a; x2 ← hexval b; x1 ← hexval c; x0 ← hexval d;
  Some (4096 * x3 + 256 * x2 + 16 * x1 + x0)%N.

Definition singleEscape (e : N) : option N :=
  if (e =? 34)%N then Some 34%N            (* backslash, quote *)
  else if (e =? 92)%N then Some 92%N       (* backslash, backslash *)
  else if (e =? 47)%N then Some 47%N       (* \/ *)
  else if (e =? 98)%N then Some 8%N        (* \b *)
  else if (e =? 102)%N then Some 12%N      (* \f *)
  else if (e =? 110)%N then Some 10%N      (* \n *)
  else if (e =? 114)%N then Some 13%N      (* \r *)
  else if (e =? 116)%N then Some 9%N       (* \t *)
  else None.

(** The characters of a string literal, after its opening quote, and the
    input left after its closing quote. *)
Fixpoint parse_chars (s : jsstring) : option (jsstring * jsstring) :=
  match s with
  | [] => None
  | c :: t =>
      if (c =? 34)%N then Some ([], t)
      else if (c =? 92)%N then
        match t with
        | [] => None
        | e :: t1 =>
            if (e =? 117)%N then
              match t1 with
              | h3 :: h2 :: h1 :: h0 :: t2 =>
                  u ← hex4 h3 h2 h1 h0;
                  '(r, s') ← parse_chars t2;
                  Some (u :: r, s')
              | _ => None
              end
            else
              u ← singleEscape e;
              '(r, s') ← parse_chars t1;
              Some (u :: r, s')
        end
      else if (c <? 32)%N then None
      else '(r, s') ← parse_chars t; Some (c :: r, s')
  end.

Definition parse_string (s : jsstring) : result (jsstring * jsstring) :=
  match parse_chars s with
  | Some r => Ok r
  | None => Fail SyntaxError
  end.

Definition expect (word : jsstring) (v : json) (s : jsstring)
    : result (json * jsstring) :=
  match strip_prefix word s with
  | Some t => Ok (v, t)
  | None => Fail SyntaxError
  end.

Definition build_object (raw : list (jsstring * json)) : json :=
  JObject (foldl (λ o kv, set_property o kv.1 kv.2) [] raw).

(** Recursive descent; [n] bounds the number of nested calls. *)
Fixpoint parse_value (n : nat) (s : jsstring) {struct n}
    : result (json * jsstring) :=
  match n with
  | 0 => Fail OutOfFuel
  | S n' =>
      match skip_ws s with
      | [] => Fail SyntaxError
      | c :: t =>
          if (c =? 110)%N then expect (js "null") JNull (c :: t)
          else if (c =? 116)%N then expect (js "true") (JBool true) (c :: t)
          else if (c =? 102)%N then expect (js "false") (JBool false) (c :: t)
          else if (c =? 34)%N then
            '(x, s') ← parse_string t; Ok (JString x, s')
          else if (c =? 91)%N then
            match skip_ws t with
            | d :: t' =>
                if (d =? 93)%N then Ok (JArray [], t')
                else '(l, s') ← parse_elements n' t; Ok (JArray l, s')
            | [] => Fail SyntaxError
            end
          else if (c =? 123)%N then
            match skip_ws t with
            | d :: t' =>
                if (d =? 125)%N then Ok (JObject [], t')
                else '(l, s') ← parse_members n' t; Ok (build_object l, s')
            | [] => Fail SyntaxError
            end
          else if (c =? 45)%N || digit c then Fail OutsideModel
          else Fail SyntaxError
      end
  end
with parse_elements (n : nat) (s : jsstring) {struct n}
    : result (list json * jsstring) :=
  match n with
  | 0 => Fail OutOfFuel
  | S n' =>
      '(x, s1) ← parse_value n' s;
      match skip_ws s1 with
      | d :: t =>
          if (d =? 44)%N then '(l, s') ← parse_elements n' t; Ok (x :: l, s')
          else if (d =? 93)%N then Ok ([x], t)
          else Fail SyntaxError
      | [] => Fail SyntaxError
      end
  end
with parse_members (n : nat) (s : jsstring) {struct n}
    : result (list (jsstring * json) * jsstring) :=
  match n with
  | 0 => Fail OutOfFuel
  | S n' =>
      match skip_ws s with
      | q :: t0 =>
          if (q =? 34)%N then
            '(k, s0) ← parse_string t0;
            match skip_ws s0 with
            | c :: t1 =>
                if (c =? 58)%N then
                  '(x, s1) ← parse_value n' t1;
                  match skip_ws s1 with
                  | d :: t =>
                      if (d =? 44)%N then
                        '(l, s') ← parse_members n' t; Ok ((k, x) :: l, s')
                      else if (d =? 125)%N then Ok ([(k, x)], t)
                      else Fail SyntaxError
                  | [] => Fail SyntaxError
                  end
                else Fail SyntaxError
            | [] => Fail SyntaxError
            end
          else Fail SyntaxError
      | [] => Fail SyntaxError
      end
  end.

(** [JSON.parse(text)]: one value, then nothing but white space. *)
Definition parse (text : jsstring) : result json :=
  '(v, s') ← parse_value (2 * length text + 2) text;
  match skip_ws s' with
  | [] => Ok v
  | _ :: _ => Fail SyntaxError
  end.

(** ToBoolean of [o.k] for a value read off an object. *)
Definition truthy (v : option json) : bool :=
  match v with
  | None | Some JNull | Some (JBool false) | Some (JString []) => false
  | Some _ => true
  end.

End Json.

Import Json.

(** ** The configuration record *)

Record Cognito : Type := {
  cognito_userPoolId : jsstring;
  cognito_userPoolClientId : jsstring;
  cognito_region : jsstring;
  cognito_identityPoolId : jsstring
}.

Record Bedrock : Type := {
  bedrock_agentName : jsstring;
  bedrock_agentId : jsstring;
  bedrock_agentAliasId : jsstring;
  bedrock_region : jsstring
}.

Record Strands : Type := {
  strands_enabled : bool;
  strands_lambdaArn : jsstring;
  strands_agentName : jsstring;
  strands_region : jsstring
}.

Record Config : Type := {
  cognito : Cognito;
  bedrock : Bedrock;
  strands : Strands
}.

#[global] Instance Cognito_eq_dec : EqDecision Cognito.
Proof. solve_decision. Defined.
#[global] Instance Bedrock_eq_dec : EqDecision Bedrock.
Proof. solve_decision. Defined.
#[global] Instance Strands_eq_dec : EqDecision Strands.
Proof. solve_decision. Defined.
#[global] Instance Config_eq_dec : EqDecision Config.
Proof. solve_decision. Defined.

Definition defaultStrands : Strands := {|
  strands_enabled := false;
  strands_lambdaArn := js "";
  strands_agentName := js "Strandsエージェント";
  strands_region := js ""
|}.

(** The argument of [useState]. *)
Definition initialConfig : Config := {|
  cognito := {|
    cognito_userPoolId := js "";
    cognito_userPoolClientId := js "";
    cognito_region := js "";
    cognito_identityPoolId := js ""
  |};
  bedrock := {|
    bedrock_agentName := js "";
    bedrock_agentId := js "";
    bedrock_agentAliasId := js "";
    bedrock_region := js ""
  |};
  strands := defaultStrands
|}.

(** The (section, field) pairs that the inputs of the form pass to
    [handleInputChange]. *)
Inductive field : Type :=
| cognito_'userPoolId | cognito_'userPoolClientId | cognito_'identityPoolId
| cognito_'region
| bedrock_'agentName | bedrock_'agentId | bedrock_'agentAliasId | bedrock_'region
| strands_'agentName | strands_'lambdaArn | strands_'region.

(** The objects behind the records, with their properties in the order of
    the object literals of the source. *)
Definition cognito_object (c : Cognito) : json :=
  JObject [(js "userPoolId", JString (cognito_userPoolId c));
           (js "userPoolClientId", JString (cognito_userPoolClientId c));
           (js "region", JString (cognito_region c));
           (js "identityPoolId", JString (cognito_identityPoolId c))].

Definition bedrock_object (b : Bedrock) : json :=
  JObject [(js "agentName", JString (bedrock_agentName b));
           (js "agentId", JString (bedrock_agentId b));
           (js "agentAliasId", JString (bedrock_agentAliasId b));
           (js "region", JString (bedrock_region b))].

Definition strands_object (s : Strands) : json :=
  JObject [(js "enabled", JBool (strands_enabled s));
           (js "lambdaArn", JString (strands_lambdaArn s));
           (js "agentName", JString (strands_agentName s));
           (js "region", JString (strands_region s))].

Definition config_object (c : Config) : json :=
  JObject [(js "cognito", cognito_object (cognito c));
           (js "bedrock", bedrock_object (bedrock c));
           (js "strands", strands_object (strands c))].

(** A configuration stored before the strands section existed. *)
Definition legacy_object (c : Cognito) (b : Bedrock) : json :=
  JObject [(js "cognito", cognito_object c); (js "bedrock", bedrock_object b)].

(** Reading a parsed value as a configuration: an object of exactly the
    shape above.  Anything else is not a configuration of the data model. *)
Definition properties (names : list string) (v : json) : option (list json) :=
  match v with
  | JObject l => if bool_decide (l.*1 = js <$> names) then Some (l.*2) else None
  | _ => None
  end.

Definition as_cognito (v : json) : option Cognito :=
  match properties ["userPoolId"; "userPoolClientId"; "region"; "identityPoolId"]%string v with
  | Some [JString a; JString b; JString c; JString d] =>
      Some {| cognito_userPoolId := a; cognito_userPoolClientId := b;
              cognito_region := c; cognito_identityPoolId := d |}
  | _ => None
  end.

Definition as_bedrock (v : json) : option Bedrock :=
  match properties ["agentName"; "agentId"; "agentAliasId"; "region"]%string v with
  | Some [JString a; JString b; JString c; JString d] =>
      Some {| bedrock_agentName := a; bedrock_agentId := b;
              bedrock_agentAliasId := c; bedrock_region := d |}
  | _ => None
  end.

Definition as_strands (v : json) : option Strands :=
  match properties ["enabled"; "lambdaArn"; "agentName"; "region"]%string v with
  | Some [JBool e; JString b; JString c; JString d] =>
      Some {| strands_enabled := e; strands_lambdaArn := b;
              strands_agentName := c; strands_region := d |}
  | _ => None
  end.

Definition as_config (v : json) : result Config :=
  match properties ["cognito"; "bedrock"; "strands"]%string v with
  | Some [c; b; s] =>
      match as_cognito c, as_bedrock b, as_strands s with
      | Some c', Some b', Some s' =>
          Ok {| cognito := c'; bedrock := b'; strands := s' |}
      | _, _, _ => Fail OutsideModel
      end
  | _ => Fail OutsideModel
  end.

(** ** The component and its surroundings *)

(** What [Amplify.configure] receives under [Auth.Cognito]. *)
Record AuthCognito : Type := {
  auth_region : jsstring;
  auth_userPoolId : jsstring;
  auth_userPoolClientId : jsstring;
  auth_identityPoolId : jsstring
}.

(** Calls of the owner's callbacks. *)
Inductive call : Type :=
| setEditingConfig_call (editing : bool)
| onConfigSet_call.

#[global] Instance call_eq_dec : EqDecision call.
Proof. solve_decision. Defined.

Record State : Type := mkSt {
  config : Config;                          (* useState *)
  errors : gmap string jsstring;            (* useState *)
  localStorage : gmap string jsstring;      (* window.localStorage *)
  amplify : list AuthCognito;               (* Amplify.configure calls, oldest first *)
  owner : list call;                        (* callback calls, oldest first *)
  console : list jsstring                   (* console.log lines *)
}.

(** Handlers and effects: state passing, with exceptions. *)
Definition M (A : Type) : Type := State → result (A * State).

#[global] Instance M_ret : MRet M := λ A a st, Ok (a, st).
#[global] Instance M_bind : MBind M := λ A B f m st,
  match m st with
  | Ok (a, st') => f a st'
  | Fail e => Fail e
  end.

Definition lift {A} (r : result A) : M A := λ st,
  match r with Ok a => Ok (a, st) | Fail e => Fail e end.

Definition getConfig : M Config := λ st, Ok (config st, st).
Definition getErrors : M (gmap string jsstring) := λ st, Ok (errors st, st).

Definition setConfig (f : Config → Config) : M unit := λ st,
  Ok ((), mkSt (f (config st)) (errors st) (localStorage st) (amplify st)
            (owner st) (console st)).

Definition setErrors (e : gmap string jsstring) : M unit := λ st,
  Ok ((), mkSt (config st) e (localStorage st) (amplify st) (owner st) (console st)).

(** [localStorage.getItem]: [None] is [null]. *)
Definition localStorage_getItem (key : string) : M (option jsstring) := λ st,
  Ok (localStorage st !! key, st).

(** [localStorage.setItem], on a storage without quota. *)
Definition localStorage_setItem (key : string) (value : jsstring) : M unit := λ st,
  Ok ((), mkSt (config st) (errors st) (<[key := value]> (localStorage st))
            (amplify st) (owner st) (console st)).

Definition Amplify_configure (a : AuthCognito) : M unit := λ st,
  Ok ((), mkSt (config st) (errors st) (localStorage st) (amplify st ++ [a])
            (owner st) (console st)).

Definition call_owner (c : call) : M unit := λ st,
  Ok ((), mkSt (config st) (errors st) (localStorage st) (amplify st)
            (owner st ++ [c]) (console st)).

Definition setEditingConfig (editing : bool) : M unit :=
  call_owner (setEditingConfig_call editing).

Definition onConfigSet : M unit := call_owner onConfigSet_call.

Definition console_log (line : jsstring) : M unit := λ st,
  Ok ((), mkSt (config st) (errors st) (localStorage st) (amplify st)
            (owner st) (console st ++ [line])).

Definition configureAmplify (config : Config) : M unit :=
  Amplify_configure {|
    auth_region := cognito_region (cognito config);
    auth_userPoolId := cognito_userPoolId (cognito config);
    auth_userPoolClientId := cognito_userPoolClientId (cognito config);
    auth_identityPoolId := cognito_identityPoolId (cognito config)
  |}.

(** [!s.trim()] *)
Definition missing (s : jsstring) : bool := negb (truthy_string (trim s)).

Definition validateForm : M bool :=
  config ← getConfig;
  let newErrors : gmap string jsstring := ∅ in
  (* Validate Cognito fields *)
  let newErrors :=
    if missing (cognito_userPoolId (cognito config))
    then <["userPoolId" := js "ユーザープールIDは必須です"]> newErrors else newErrors in
  let newErrors :=
    if missing (cognito_userPoolClientId (cognito config))
    then <["userPoolClientId" := js "ユーザープールクライアントIDは必須です"]> newErrors
    else newErrors in
  let newErrors :=
    if missing (cognito_identityPoolId (cognito config))
    then <["identityPoolId" := js "アイデンティティプールIDは必須です"]> newErrors
    else newErrors in
  let newErrors :=
    if missing (cognito_region (cognito config))
    then <["cognitoRegion" := js "Cognitoリージョンは必須です"]> newErrors else newErrors in
  (* Validate Bedrock fields if Strands Agent is not enabled *)
  let newErrors :=
    if negb (strands_enabled (strands config)) then
      let newErrors :=
        if missing (bedrock_agentId (bedrock config))
        then <["agentId" := js "エージェントIDは必須です"]> newErrors else newErrors in
      let newErrors :=
        if missing (bedrock_agentAliasId (bedrock config))
        then <["agentAliasId" := js "エージェントエイリアスIDは必須です"]> newErrors
        else newErrors in
      if missing (bedrock_region (bedrock config))
      then <["bedrockRegion" := js "Bedrockリージョンは必須です"]> newErrors else newErrors
    else newErrors in
  (* Validate Strands fields if enabled *)
  let newErrors :=
    if strands_enabled (strands config) then
      let newErrors :=
        if missing (strands_lambdaArn (strands config))
        then <["lambdaArn" := js "Lambda ARNは必須です"]> newErrors else newErrors in
      if missing (strands_region (strands config))
      then <["strandsRegion" := js "リージョンは必須です"]> newErrors else newErrors
    else newErrors in
  setErrors newErrors;;
  mret (bool_decide (size newErrors = 0)).

(** [if (!parsedConfig.strands) parsedConfig.strands = {...}].  The module is
    strict code: the assignment throws on a primitive. *)
Definition ensure_strands (parsedConfig : json) : result json :=
  match parsedConfig with
  | JObject l =>
      if negb (truthy (get_property l (js "strands")))
      then Ok (JObject (set_property l (js "strands") (strands_object defaultStrands)))
      else Ok parsedConfig
  | JNull => Fail TypeError
  | JBool _ | JString _ => Fail TypeError
  | JArray _ => Fail OutsideModel
  end.

(** The effect that runs on mount and when [isEditingConfig] changes. *)
Definition loadEffect (isEditingConfig : bool) : M unit :=
  storedConfig ← localStorage_getItem "appConfig";
  match storedConfig with
  | Some text =>
      if truthy_string text then
        parsedConfig ← lift (Json.parse text);
        parsedConfig ← lift (ensure_strands parsedConfig);
        parsedConfig ← lift (as_config parsedConfig);
        if negb isEditingConfig then configureAmplify parsedConfig
        else
          console_log (js "loading configuration");;
          setConfig (λ _, parsedConfig)
      else mret ()
  | None => mret ()
  end.

Definition set_field (f : field) (value : jsstring) (prevConfig : Config) : Config :=
  let c := cognito prevConfig in
  let b := bedrock prevConfig in
  let s := strands prevConfig in
  match f with
  | cognito_'userPoolId =>
      {| cognito := {| cognito_userPoolId := value;
                       cognito_userPoolClientId := cognito_userPoolClientId c;
                       cognito_region := cognito_region c;
                       cognito_identityPoolId := cognito_identityPoolId c |};
         bedrock := b; strands := s |}
  | cognito_'userPoolClientId =>
      {| cognito := {| cognito_userPoolId := cognito_userPoolId c;
                       cognito_userPoolClientId := value;
                       cognito_region := cognito_region c;
                       cognito_identityPoolId := cognito_identityPoolId c |};
         bedrock := b; strands := s |}
  | cognito_'identityPoolId =>
      {| cognito := {| cognito_userPoolId := cognito_userPoolId c;
                       cognito_userPoolClientId := cognito_userPoolClientId c;
                       cognito_region := cognito_region c;
                       cognito_identityPoolId := value |};
         bedrock := b; strands := s |}
  | cognito_'region =>
      {| cognito := {| cognito_userPoolId := cognito_userPoolId c;
                       cognito_userPoolClientId := cognito_userPoolClientId c;
                       cognito_region := value;
                       cognito_identityPoolId := cognito_identityPoolId c |};
         bedrock := b; strands := s |}
  | bedrock_'agentName =>
      {| cognito := c;
         bedrock := {| bedrock_agentName := value;
                       bedrock_agentId := bedrock_agentId b;
                       bedrock_agentAliasId := bedrock_agentAliasId b;
                       bedrock_region := bedrock_region b |};
         strands := s |}
  | bedrock_'agentId =>
      {| cognito := c;
         bedrock := {| bedrock_agentName := bedrock_agentName b;
                       bedrock_agentId := value;
                       bedrock_agentAliasId := bedrock_agentAliasId b;
                       bedrock_region := bedrock_region b |};
         strands := s |}
  | bedrock_'agentAliasId =>
      {| cognito := c;
         bedrock := {| bedrock_agentName := bedrock_agentName b;
                       bedrock_agentId := bedrock_agentId b;
                       bedrock_agentAliasId := value;
                       bedrock_region := bedrock_region b |};
         strands := s |}
  | bedrock_'region =>
      {| cognito := c;
         bedrock := {| bedrock_agentName := bedrock_agentName b;
                       bedrock_agentId := bedrock_agentId b;
                       bedrock_agentAliasId := bedrock_agentAliasId b;
                       bedrock_region := value |};
         strands := s |}
  | strands_'agentName =>
      {| cognito := c; bedrock := b;
         strands := {| strands_enabled := strands_enabled s;
                       strands_lambdaArn := strands_lambdaArn s;
                       strands_agentName := value;
                       strands_region := strands_region s |} |}
  | strands_'lambdaArn =>
      {| cognito := c; bedrock := b;
         strands := {| strands_enabled := strands_enabled s;
                       strands_lambdaArn := value;
                       strands_agentName := strands_agentName s;
                       strands_region := strands_region s |} |}
  | strands_'region =>
      {| cognito := c; bedrock := b;
         strands := {| strands_enabled := strands_enabled s;
                       strands_lambdaArn := strands_lambdaArn s;
                       strands_agentName := strands_agentName s;
                       strands_region := value |} |}
  end.

Definition handleInputChange (f : field) (value : jsstring) : M unit :=
  setConfig (set_field f value).

(** Update Strands region when Lambda ARN changes.  [config] is the value
    that the render which scheduled the effect closed over. *)
Definition regionEffect (config : Config) : M unit :=
  if strands_enabled (strands config)
     && truthy_string (strands_lambdaArn (strands config)) then
    let region := extractRegionFromLambdaArn (strands_lambdaArn (strands config)) in
    if truthy_string region then handleInputChange strands_'region region
    else mret ()
  else mret ().

Definition handleSubmit : M unit :=
  (* e.preventDefault() *)
  valid ← validateForm;
  if (valid : bool) return M unit then
    config ← getConfig;
    localStorage_setItem "appConfig" (stringify (config_object config));;
    configureAmplify config;;
    setEditingConfig false;;
    onConfigSet
  else mret ().

(** The key under which the input of a field clears its error. *)
Definition error_key (f : field) : string :=
  match f with
  | cognito_'userPoolId => "userPoolId"
  | cognito_'userPoolClientId => "userPoolClientId"
  | cognito_'identityPoolId => "identityPoolId"
  | cognito_'region => "cognitoRegion"
  | bedrock_'agentName => "agentName"
  | bedrock_'agentId => "agentId"
  | bedrock_'agentAliasId => "agentAliasId"
  | bedrock_'region => "bedrockRegion"
  | strands_'agentName => "strandsAgentName"
  | strands_'lambdaArn => "lambdaArn"
  | strands_'region => "strandsRegion"
  end.

(** [onChange] of the input of field [f]. *)
Definition onChange (f : field) (value : jsstring) : M unit :=
  errors ← getErrors;
  handleInputChange f value;;
  setErrors (<[error_key f := js ""]> errors).

(** [onChange] of the agent type selector. *)
Definition onSelect (value : string) : M unit :=
  setConfig (λ prevConfig,
    let s := strands prevConfig in
    {| cognito := cognito prevConfig; bedrock := bedrock prevConfig;
       strands := {| strands_enabled := bool_decide (value = "strands");
                     strands_lambdaArn := strands_lambdaArn s;
                     strands_agentName := strands_agentName s;
                     strands_region := strands_region s |} |}).

(** [onClick] of the cancel button. *)
Definition onCancel : M unit := setEditingConfig false.

(** [disabled] of the input of the strands region. *)
Definition region_input_disabled (config : Config) : bool :=
  truthy_string (extractRegionFromLambdaArn (strands_lambdaArn (strands config))).

(** After a render, an effect runs when one of its dependencies changed:
    [[config.strands.lambdaArn, config.strands.enabled]] for the region
    effect. *)
Definition region_deps (c : Config) : jsstring * bool :=
  (strands_lambdaArn (strands c), strands_enabled (strands c)).

Definition commit (prev : Config) : M unit :=
  config ← getConfig;
  if bool_decide (region_deps prev = region_deps config) then mret ()
  else regionEffect config.

Inductive event : Type :=
| Change (f : field) (value : jsstring)
| Select (value : string)
| Submit
| Cancel.

Definition handler (e : event) : M unit :=
  match e with
  | Change f value => onChange f value
  | Select value => onSelect value
  | Submit => handleSubmit
  | Cancel => onCancel
  end.

(** One user event: the handler, then the effects of the next render. *)
Definition dispatch (e : event) : M unit :=
  prev ← getConfig;
  handler e;;
  commit prev.

Fixpoint dispatch_all (es : list event) : M unit :=
  match es with
  | [] => mret ()
  | e :: es' => dispatch e;; dispatch_all es'
  end.

(** A freshly created component in its surroundings. *)
Definition initialState (storage : gmap string jsstring) : State :=
  mkSt initialConfig ∅ storage [] [] [].

(** Mounting: both effects run after the first render, on the state that
    this render saw; the region effect runs again if the load changed its
    dependencies. *)
Definition mount (isEditingConfig : bool) : M unit :=
  config ← getConfig;
  loadEffect isEditingConfig;;
  regionEffect config;;
  commit config.

(** ** The preview frame *)

Module PreviewIframe.

Record iframe : Type := {
  srcdoc : option jsstring;      (* the attribute; [None] while unset *)
  sandbox : string;
  title : string
}.

(** The element that the component renders. *)
Definition rendered : iframe :=
  {| srcdoc := None; sandbox := "allow-scripts"; title := "Agent HTML Preview" |}.

(** The body of the effect, on [iframeRef.current]. *)
Definition effect (html : jsstring) (current : option iframe) : option iframe :=
  match current with
  | Some el =>
      Some {| srcdoc := Some html; sandbox := sandbox el; title := title el |}
  | None => None
  end.

(** First render with [html]: the element is attached, then the effect
    runs. *)
Definition mount (html : jsstring) : option iframe := effect html (Some rendered).

(** A later render: the effect runs when [html] changed. *)
Definition update (prev html : jsstring) (current : option iframe) : option iframe :=
  if decide (prev = html) then current else effect html current.

(** The document shown by the frame is the one of its [srcdoc]. *)
Definition content (current : option iframe) : option jsstring :=
  el ← current; srcdoc el.

(** The frame after a first render with [html] and later renders with the
values of [later], in turn. *)
Fixpoint rerender (prev : jsstring) (later : list jsstring)
    (current : option iframe) : option iframe :=
  match later with
  | [] => current
  | html :: later' => rerender html later' (update prev html current)
  end.

Definition renders (html : jsstring) (later : list jsstring) : option iframe :=
  rerender html later (mount html).

End PreviewIframe.


(** ** Vocabulary of the statements *)

(** The error mapping that [validateForm] leaves for a configuration. *)
Definition validation_errors (c : Config) : gmap string jsstring :=
  match validateForm (mkSt c ∅ ∅ [] [] []) with
  | Ok (_, st) => errors st
  | Fail _ => ∅
  end.

(** What [configureAmplify] passes on. *)
Definition auth_of (c : Config) : AuthCognito := {|
  auth_region := cognito_region (cognito c);
  auth_userPoolId := cognito_userPoolId (cognito c);
  auth_userPoolClientId := cognito_userPoolClientId (cognito c);
  auth_identityPoolId := cognito_identityPoolId (cognito c)
|}.

(** The state with another configuration in the form. *)
Definition with_config (c : Config) (st : State) : State :=
  mkSt c (errors st) (localStorage st) (amplify st) (owner st) (console st).

(** The values shown as examples by the inputs of the form. *)
Definition sampleConfig : Config := {|
  cognito := {|
    cognito_userPoolId := js "us-east-1_uXboG5pAb";
    cognito_userPoolClientId := js "25ddkmj4v6hfsfvruhpfi7n4hv";
    cognito_region := js "us-east-1";
    cognito_identityPoolId := js "us-east-1:a0421ced-2ae0-45ab-a503-21f6f23c5562"
  |};
  bedrock := {|
    bedrock_agentName := js "MyAgent";
    bedrock_agentId := js "UF1W5WKVYI";
    bedrock_agentAliasId := js "TSTALIASID";
    bedrock_region := js "us-east-1"
  |};
  strands := defaultStrands
|}.

(** An event that edits the form. *)
Definition is_edit (e : event) : Prop :=
  match e with
  | Change _ _ | Select _ => True
  | Submit | Cancel => False
  end.

(** Number of nodes of a value, each array element and object member
    counted once more: enough nested calls for the parser. *)
Fixpoint nodes (v : json) : nat :=
  match v with
  | JArray l => S (list_sum (map (λ x, S (nodes x)) l))
  | JObject l => S (list_sum (map (λ '(_, x), S (nodes x)) l))
  | _ => 1
  end.

(** An object as the engine holds it: filling an empty object with its
    properties, one after the other, gives it back (no key twice, array
    indices first and in order). *)
Fixpoint canonical (v : json) : Prop :=
  match v with
  | JArray l => fold_right (λ x acc, canonical x ∧ acc) True l
  | JObject l =>
      foldl (λ o kv, set_property o kv.1 kv.2) [] l = l
      ∧ fold_right (λ '(_, x) acc, canonical x ∧ acc) True l
  | _ => True
  end.

(** Reading back what was written for [x], with input [rest] after it and
    [n] nested calls allowed. *)
Definition reads (x : json) : Prop :=
  canonical x → ∀ n rest, nodes x ≤ n →
  parse_value n (stringify x ++ rest) = Ok (x, rest).

(** A character other than the separator. *)
Definition differs (sep : N) (c : N) : bool := negb (c =? sep)%N.

(** The repetition of [p] cannot go on into [t]. *)
Definition stops (p : N → bool) (t : jsstring) : Prop :=
  match t with [] => True | c :: _ => p c = false end.

(** What the pattern accepts, and the region it captures. *)
Definition lambda_arn (arn region : jsstring) : Prop :=
  ∃ account name,
    arn = js "arn:aws:lambda:" ++ region ++ js ":" ++ account
            ++ js ":function:" ++ name
    ∧ region ≠ [] ∧ forallb region_char region = true
    ∧ account ≠ [] ∧ forallb digit account = true
    ∧ name ≠ [] ∧ forallb dot name = true.

(** ** What the form renders *)

(** [value] of the input of a field. *)
Definition input_value (f : field) (config : Config) : jsstring :=
  match f with
  | cognito_'userPoolId => cognito_userPoolId (cognito config)
  | cognito_'userPoolClientId => cognito_userPoolClientId (cognito config)
  | cognito_'identityPoolId => cognito_identityPoolId (cognito config)
  | cognito_'region => cognito_region (cognito config)
  | bedrock_'agentName => bedrock_agentName (bedrock config)
  | bedrock_'agentId => bedrock_agentId (bedrock config)
  | bedrock_'agentAliasId => bedrock_agentAliasId (bedrock config)
  | bedrock_'region => bedrock_region (bedrock config)
  | strands_'agentName => strands_agentName (strands config)
  | strands_'lambdaArn => strands_lambdaArn (strands config)
  | strands_'region => strands_region (strands config)
  end.

(** Whether the form field of [f] is rendered: the cognito container always,
    the bedrock container under [!config.strands.enabled], the strands
    container under [config.strands.enabled]. *)
Definition rendered (config : Config) (f : field) : bool :=
  match f with
  | cognito_'userPoolId | cognito_'userPoolClientId | cognito_'identityPoolId
  | cognito_'region => true
  | bedrock_'agentName | bedrock_'agentId | bedrock_'agentAliasId
  | bedrock_'region => negb (strands_enabled (strands config))
  | strands_'agentName | strands_'lambdaArn | strands_'region =>
      strands_enabled (strands config)
  end.

(** [disabled] of the input of [f]: only the strands region has one. *)
Definition input_disabled (config : Config) (f : field) : bool :=
  match f with
  | strands_'region => region_input_disabled config
  | _ => false
  end.

(** [errorText] of the form field of [f]; [None] is [undefined]. *)
Definition errorText (f : field) (errors : gmap string jsstring) : option jsstring :=
  errors !! error_key f.

(** [options] of the agent type selector, and its [selectedOption]. *)
Definition select_options : list (string * jsstring) :=
  [("bedrock"%string, js "Bedrockエージェント");
   ("strands"%string, js "Strandsエージェント")].

Definition selectedOption (config : Config) : string * jsstring :=
  (if strands_enabled (strands config) then "strands"%string else "bedrock"%string,
   if strands_enabled (strands config) then js "Strandsエージェント"
   else js "Bedrockエージェント").

(** The events that the rendered form can deliver: a change comes from an
    input that is rendered and not disabled, a selection is one of the
    options. *)
Definition can_fire (config : Config) (e : event) : bool :=
  match e with
  | Change f _ => rendered config f && negb (input_disabled config f)
  | Select value => bool_decide (value ∈ select_options.*1)
  | Submit | Cancel => true
  end.

(** The states of a component from its mount on, through the events of its
    form. *)
Inductive reachable : State → Prop :=
| reachable_mount isEditingConfig storage st :
    mount isEditingConfig (initialState storage) = Ok ((), st) →
    reachable st
| reachable_dispatch st e st' :
    reachable st →
    can_fire (config st) e = true →
    dispatch e st = Ok ((), st') →
    reachable st'.

(** While the strands agent is selected and the region input is disabled,
    the region is the one of the function identifier. *)
Definition region_consistent (c : Config) : Prop :=
  strands_enabled (strands c) = true →
  region_input_disabled c = true →
  strands_region (strands c)
  = extractRegionFromLambdaArn (strands_lambdaArn (strands c)).

(** A stored object whose strands property is [v]. *)
Definition stored_object (cg : Cognito) (bd : Bedrock) (v : json) : json :=
  JObject [(js "cognito", cognito_object cg); (js "bedrock", bedrock_object bd);
           (js "strands", v)].

(** Values that are not objects or arrays. *)
Definition primitive (v : json) : Prop :=
  match v with
  | JNull | JBool _ | JString _ => True
  | JArray _ | JObject _ => False
  end.

(** The section that the input of a field passes to [handleInputChange]. *)
Definition section_of (f : field) : string :=
  match f with
  | cognito_'userPoolId | cognito_'userPoolClientId | cognito_'identityPoolId
  | cognito_'region => "cognito"
  | bedrock_'agentName | bedrock_'agentId | bedrock_'agentAliasId
  | bedrock_'region => "bedrock"
  | strands_'agentName | strands_'lambdaArn | strands_'region => "strands"
  end.

(** * Properties *)

(** ** The definitions at work *)

Example js_code_units : js "aエ" = [97%N; 12456%N].
Proof. reflexivity. Qed.

Example trim_spaces : trim (js "  a b 　") = js "a b".
Proof. reflexivity. Qed.

Example ideographic_space_is_blank : blank (js "　 ") = true.
Proof. reflexivity. Qed.

Example extract_example :
  extractRegionFromLambdaArn
    (js "arn:aws:lambda:us-west-2:123456789012:function:foo") = js "us-west-2".
Proof. vm_compute. reflexivity. Qed.

Example extract_not_an_arn : extractRegionFromLambdaArn (js "not-an-arn") = [].
Proof. reflexivity. Qed.

Example extract_line_break :
  extractRegionFromLambdaArn
    (js "arn:aws:lambda:us-west-2:123456789012:function:foo" ++ [10%N]) = [].
Proof. vm_compute. reflexivity. Qed.

Example stringify_string :
  stringify (JString [97%N; 34%N; 10%N; 7%N; 55357%N])
  = [34%N] ++ js "a\" ++ [34%N] ++ js "\n\u0007\ud83d" ++ [34%N].
Proof. vm_compute. reflexivity. Qed.

Example parse_array :
  Json.parse (js " [true, null ,[ ] ] ") = Ok (JArray [JBool true; JNull; JArray []]).
Proof. vm_compute. reflexivity. Qed.

Example parse_number : Json.parse (js "[1]") = Fail OutsideModel.
Proof. vm_compute. reflexivity. Qed.

Example parse_trailing_comma : Json.parse (js "[true,]") = Fail SyntaxError.
Proof. vm_compute. reflexivity. Qed.

Example property_order :
  set_property (set_property [(js "b", JNull)] (js "10") JNull) (js "9") (JBool true)
  = [(js "9", JBool true); (js "10", JNull); (js "b", JNull)].
Proof. vm_compute. reflexivity. Qed.

Example initial_form_is_invalid :
  validation_errors initialConfig !! "userPoolId" = Some (js "ユーザープールIDは必須です")
  ∧ validation_errors initialConfig !! "lambdaArn" = None.
Proof. vm_compute. done. Qed.


(** ** Strings *)

Lemma trimStart_nil_iff (s : jsstring) : trimStart s = [] ↔ blank s = true.
Proof.
  unfold blank. induction s as [|c t IH]; simpl; [done|].
  destruct (isTrimmed c); simpl; [exact IH | split; discriminate].
Qed.

Lemma trimStart_head (s : jsstring) c t :
  trimStart s = c :: t → isTrimmed c = false.
Proof.
  induction s as [|d u IH]; simpl; [discriminate|].
  destruct (isTrimmed d) eqn:Hd; [exact IH|].
  intros [= -> _]. exact Hd.
Qed.

Lemma blank_app (s t : jsstring) : blank (s ++ t) = blank s && blank t.
Proof. apply forallb_app. Qed.

Lemma blank_rev (s : jsstring) : blank (rev s) = blank s.
Proof.
  induction s as [|c t IH]; simpl; [done|].
  rewrite blank_app, IH. simpl. rewrite andb_true_r. apply andb_comm.
Qed.

Lemma trim_nil_iff (s : jsstring) : trim s = [] ↔ blank s = true.
Proof.
  unfold trim, trimEnd. split.
  - intros H. apply (f_equal (@rev N)) in H. rewrite rev_involutive in H. simpl in H.
    apply trimStart_nil_iff in H. rewrite blank_rev in H.
    destruct (trimStart s) as [|c t] eqn:E; [by apply trimStart_nil_iff|].
    apply trimStart_head in E. simpl in H. rewrite E in H. discriminate.
  - intros H. apply trimStart_nil_iff in H. by rewrite H.
Qed.

(** [!s.trim()] holds exactly for the empty and the white-space-only
    strings. *)
Lemma missing_blank (s : jsstring) : missing s = blank s.
Proof.
  unfold missing. destruct (blank s) eqn:E.
  - apply trim_nil_iff in E. by rewrite E.
  - destruct (trim s) eqn:T; [|done].
    apply trim_nil_iff in T. congruence.
Qed.

Lemma truthy_string_true (s : jsstring) : truthy_string s = true ↔ s ≠ [].
Proof. destruct s; simpl; split; congruence. Qed.

Lemma forallb_imp {A} (p q : A → bool) (l : list A) :
  (∀ c, p c = true → q c = true) → forallb p l = true → forallb q l = true.
Proof.
  intros Hpq. induction l as [|c t IH]; simpl; [done|].
  intros [Hc Ht]%andb_prop. by rewrite (Hpq _ Hc), IH.
Qed.

(** ** Splitting at a separator *)


Lemma split_on_nonempty sep s : split_on sep s ≠ [].
Proof.
  destruct s as [|c t]; simpl; [done|].
  destruct (c =? sep)%N; [done|]. by destruct (split_on sep t).
Qed.

Lemma split_on_free sep a :
  forallb (differs sep) a = true → split_on sep a = [a].
Proof.
  induction a as [|c t IH]; simpl; [done|].
  unfold differs at 1. intros [Hc Ht]%andb_prop.
  apply negb_true_iff in Hc. by rewrite Hc, IH.
Qed.

Lemma split_on_app sep a t :
  forallb (differs sep) a = true →
  split_on sep (a ++ sep :: t) = a :: split_on sep t.
Proof.
  induction a as [|c u IH]; simpl.
  - intros _. by rewrite N.eqb_refl.
  - unfold differs at 1. intros [Hc Hu]%andb_prop.
    apply negb_true_iff in Hc. by rewrite Hc, IH.
Qed.

Lemma split_on_single_nil sep s : split_on sep s = [[]] → s = [].
Proof.
  destruct s as [|c t]; simpl; [done|].
  destruct (c =? sep)%N.
  - intros [= H]. by destruct (split_on_nonempty sep t).
  - by destruct (split_on sep t).
Qed.

(** ** The matcher *)

Lemma strip_prefix_app p t : strip_prefix p (p ++ t) = Some t.
Proof. induction p as [|a p IH]; simpl; [done|]. by rewrite N.eqb_refl. Qed.

Lemma strip_prefix_inv p s t : strip_prefix p s = Some t → s = p ++ t.
Proof.
  revert s. induction p as [|a p IH]; intros [|b s]; simpl; try congruence.
  destruct (N.eqb_spec a b) as [->|]; [|done].
  intros H. by rewrite (IH _ H).
Qed.

Lemma repeatSet_inv p s : ∀ i caps k y,
  repeatSet p i s caps k = Some y →
  ∃ a t, s = a ++ t ∧ a ≠ [] ∧ forallb p a = true
         ∧ k (mkState (i + length a) t caps) = Some y.
Proof.
  induction s as [|c u IH]; intros i caps k y; simpl; [done|].
  destruct (p c) eqn:Hc; [|done].
  destruct (repeatSet p (S i) u caps k) as [y'|] eqn:E.
  - intros [= ->]. destruct (IH _ _ _ _ E) as (a & t & -> & _ & Ha & Hk).
    exists (c :: a), t. simpl. rewrite Hc, Ha.
    replace (i + S (length a)) with (S i + length a) by lia. done.
  - intros Hk. exists [c], u. simpl. rewrite Hc.
    replace (i + 1) with (S i) by lia. done.
Qed.


Lemma repeatSet_stops p t i caps k : stops p t → repeatSet p i t caps k = None.
Proof. destruct t as [|c u]; simpl; [done|]. by intros ->. Qed.

Lemma repeatSet_longest p a : ∀ t i caps k y,
  a ≠ [] → forallb p a = true → stops p t →
  k (mkState (i + length a) t caps) = Some y →
  repeatSet p i (a ++ t) caps k = Some y.
Proof.
  induction a as [|c u IH]; intros t i caps k y Hne Ha Ht Hk; [done|].
  simpl in *. apply andb_prop in Ha as [Hc Hu]. rewrite Hc.
  destruct u as [|d u'].
  - simpl in *. rewrite (repeatSet_stops _ _ _ _ _ Ht).
    by replace (S i) with (i + 1) by lia.
  - rewrite (IH t (S i) caps k y); [done|done|done|done|].
    by replace (S i + length (d :: u')) with (i + S (length (d :: u'))) by lia.
Qed.

Lemma repeatSet_all p a i caps k y :
  a ≠ [] → forallb p a = true →
  k (mkState (i + length a) [] caps) = Some y →
  repeatSet p i a caps k = Some y.
Proof.
  intros Hne Ha Hk. rewrite <- (app_nil_r a) at 1.
  by apply repeatSet_longest.
Qed.

Lemma search_anchored r s : ∀ i, i ≠ 0 → search (Bol ⋅ r) i s = None.
Proof.
  induction s as [|c t IH]; intros i Hi; simpl;
    destruct (decide (i = 0)); try done. by apply IH.
Qed.

Lemma search_anchored_0 r s :
  search (Bol ⋅ r) 0 s = run (Bol ⋅ r) (mkState 0 s []) Some.
Proof.
  destruct s as [|c t]; simpl.
  - by destruct (run r _ _).
  - destruct (run r _ _); [done|]. by apply search_anchored.
Qed.

(** ** The pattern of a function identifier *)


Lemma region_char_colon c : region_char c = true → differs colon c = true.
Proof.
  unfold differs, colon. destruct (N.eqb_spec c 58) as [->|]; [|done].
  vm_compute. done.
Qed.

Lemma digit_colon c : digit c = true → differs colon c = true.
Proof.
  unfold differs, colon. destruct (N.eqb_spec c 58) as [->|]; [|done].
  vm_compute. done.
Qed.

Lemma run_arnPattern_inv s y :
  run arnPattern (mkState 0 s []) Some = Some y →
  ∃ region, lambda_arn s region ∧ captures y = [region].
Proof.
  unfold arnPattern. cbn [run endIndex rest captures].
  destruct (decide (0 = 0)); [|done].
  destruct (strip_prefix _ s) as [s1|] eqn:E1; [|done].
  apply strip_prefix_inv in E1 as ->.
  intros (region & s2 & -> & Hr & Hrc & H)%repeatSet_inv.
  cbn [run endIndex rest captures] in H.
  destruct (strip_prefix _ s2) as [s3|] eqn:E2; [|done].
  apply strip_prefix_inv in E2 as ->.
  apply repeatSet_inv in H as (account & s4 & -> & Ha & Hac & H).
  cbn [run endIndex rest captures] in H.
  destruct (strip_prefix _ s4) as [s5|] eqn:E3; [|done].
  apply strip_prefix_inv in E3 as ->.
  apply repeatSet_inv in H as (name & s6 & -> & Hn & Hnc & H).
  cbn [run endIndex rest captures] in H.
  destruct s6; [|done]. injection H as <-. cbn [captures].
  exists region. split.
  - exists account, name. by rewrite app_nil_r.
  - simpl. f_equal. replace (_ - _) with (length region) by lia.
    by rewrite take_app_length.
Qed.

Lemma run_arnPattern_complete s region :
  lambda_arn s region →
  ∃ y, run arnPattern (mkState 0 s []) Some = Some y ∧ captures y = [region].
Proof.
  intros (account & name & -> & Hr & Hrc & Ha & Hac & Hn & Hnc).
  unfold arnPattern. cbn [run endIndex rest captures].
  destruct (decide (0 = 0)); [|done].
  rewrite strip_prefix_app.
  eexists. split.
  - apply repeatSet_longest; [done|done|by vm_compute|].
    cbn [run endIndex rest captures]. rewrite strip_prefix_app.
    apply repeatSet_longest; [done|done|by vm_compute|].
    cbn [run endIndex rest captures]. rewrite strip_prefix_app.
    apply repeatSet_all; [done|done|].
    cbn [run endIndex rest captures]. reflexivity.
  - cbn [captures]. simpl. f_equal. replace (_ - _) with (length region) by lia.
    by rewrite take_app_length.
Qed.

Lemma extract_sound arn :
  extractRegionFromLambdaArn arn ≠ [] →
  lambda_arn arn (extractRegionFromLambdaArn arn).
Proof.
  unfold extractRegionFromLambdaArn, str_match.
  change arnPattern with (Bol ⋅ (Lit (js "arn:aws:lambda:") ⋅ Group (PlusSet region_char)
    ⋅ Lit (js ":") ⋅ PlusSet digit ⋅ Lit (js ":function:") ⋅ PlusSet dot ⋅ Eol)) at 1 2.
  rewrite search_anchored_0.
  destruct (run _ _ _) as [y|] eqn:E; simpl; [|done].
  apply run_arnPattern_inv in E as (region & Hs & ->).
  destruct region; simpl; done.
Qed.

Lemma extract_complete arn region :
  lambda_arn arn region → extractRegionFromLambdaArn arn = region.
Proof.
  intros H. pose proof H as (_ & _ & _ & Hr & _).
  apply run_arnPattern_complete in H as (y & E & Hy).
  unfold extractRegionFromLambdaArn, str_match.
  change arnPattern with (Bol ⋅ (Lit (js "arn:aws:lambda:") ⋅ Group (PlusSet region_char)
    ⋅ Lit (js ":") ⋅ PlusSet digit ⋅ Lit (js ":function:") ⋅ PlusSet dot ⋅ Eol)) at 1.
  rewrite search_anchored_0.
  change (Bol ⋅ _) with arnPattern. rewrite E. simpl. rewrite Hy.
  destruct region; done.
Qed.

(** The pattern fails exactly when the function returns the empty string. *)
Lemma extract_nil_iff arn :
  extractRegionFromLambdaArn arn = [] ↔ ¬ ∃ region, lambda_arn arn region.
Proof.
  split.
  - intros E (region & H). pose proof H as (_ & _ & _ & Hr & _).
    apply extract_complete in H. congruence.
  - intros H. destruct (extractRegionFromLambdaArn arn) eqn:E; [done|].
    destruct H. exists (extractRegionFromLambdaArn arn).
    apply extract_sound. by rewrite E.
Qed.

Lemma lambda_arn_segments arn region :
  lambda_arn arn region →
  ∃ account name,
    segments arn = [js "arn"; js "aws"; js "lambda"; region; account; js "function"]
                     ++ segments name
    ∧ forallb digit account = true ∧ name ≠ [].
Proof.
  intros (account & name & -> & Hr & Hrc & Ha & Hac & Hn & Hnc).
  exists account, name. split; [|done]. unfold segments.
  change (js "arn:aws:lambda:" ++ region ++ js ":" ++ account ++ js ":function:" ++ name)
    with (js "arn" ++ colon :: js "aws" ++ colon :: js "lambda" ++ colon ::
          (region ++ colon :: account ++ colon :: js "function" ++ colon :: name)).
  rewrite !split_on_app; try done.
  - eapply forallb_imp; [apply digit_colon|done].
  - eapply forallb_imp; [apply region_char_colon|done].
Qed.

(** ** JSON text: what is written is read back *)

Lemma hexval_hexdigit d : (d < 16)%N → hexval (hexdigit d) = Some d.
Proof.
  intros Hd.
  assert (H : forallb (λ d, bool_decide (hexval (hexdigit d) = Some d))
                (map N.of_nat (seq 0 16)) = true) by (vm_compute; reflexivity).
  rewrite List.forallb_forall in H. specialize (H d).
  apply bool_decide_eq_true in H; [done|].
  apply in_map_iff. exists (N.to_nat d). split; [apply N2Nat.id|].
  apply in_seq. lia.
Qed.

Lemma nibble_bound c k : (N.land (N.shiftr c k) 15 < 16)%N.
Proof. change 15%N with (N.ones 4). rewrite N.land_ones. by apply N.mod_lt. Qed.

Lemma nibble0_bound c : (N.land c 15 < 16)%N.
Proof. change 15%N with (N.ones 4). rewrite N.land_ones. by apply N.mod_lt. Qed.

Lemma nibbles c :
  (c < 65536)%N →
  (4096 * N.land (N.shiftr c 12) 15 + 256 * N.land (N.shiftr c 8) 15
   + 16 * N.land (N.shiftr c 4) 15 + N.land c 15 = c)%N.
Proof.
  intros Hc. change 15%N with (N.ones 4). rewrite !N.land_ones, !N.shiftr_div_pow2.
  change (2 ^ 12)%N with 4096%N. change (2 ^ 8)%N with 256%N.
  change (2 ^ 4)%N with 16%N.
  pose proof (N.div_mod c 16 ltac:(done)) as H0.
  pose proof (N.div_mod (c / 16) 16 ltac:(done)) as H1.
  pose proof (N.div_mod (c / 16 / 16) 16 ltac:(done)) as H2.
  pose proof (N.mod_lt c 16 ltac:(done)).
  pose proof (N.mod_lt (c / 16) 16 ltac:(done)).
  pose proof (N.mod_lt (c / 16 / 16) 16 ltac:(done)).
  assert (E8 : (c / 256 = c / 16 / 16)%N) by (by rewrite N.Div0.div_div).
  assert (E12 : (c / 4096 = c / 16 / 16 / 16)%N) by (by rewrite !N.Div0.div_div).
  assert (Hs : (c / 16 / 16 / 16 < 16)%N).
  { rewrite !N.Div0.div_div. apply N.Div0.div_lt_upper_bound. exact Hc. }
  rewrite E8, E12, (N.mod_small _ _ Hs). lia.
Qed.

Lemma hex4_unicodeEscape c s :
  (c < 65536)%N →
  parse_chars (unicodeEscape c ++ s)
  = '(r, s') ← parse_chars s; Some (c :: r, s').
Proof.
  intros Hc. unfold unicodeEscape. cbn [app parse_chars].
  change (92 =? 34)%N with false. change (92 =? 92)%N with true.
  change (117 =? 117)%N with true. cbn iota. unfold hex4.
  rewrite !hexval_hexdigit by (apply nibble_bound || apply nibble0_bound).
  cbn [mbind option_bind]. rewrite (nibbles c Hc). done.
Qed.

Lemma parse_chars_plain c s :
  c ≠ 34%N → c ≠ 92%N → (32 ≤ c)%N →
  parse_chars (c :: s) = '(r, s') ← parse_chars s; Some (c :: r, s').
Proof.
  intros H1 H2 H3. cbn [parse_chars].
  apply N.eqb_neq in H1, H2. rewrite H1, H2.
  by replace (c <? 32)%N with false by (symmetry; apply N.ltb_ge; lia).
Qed.

Lemma parse_chars_quoteUnit c s :
  parse_chars (quoteUnit c ++ s) = '(r, s') ← parse_chars s; Some (c :: r, s').
Proof.
  unfold quoteUnit.
  destruct (N.eqb_spec c 8) as [->|H8]; [done|].
  destruct (N.eqb_spec c 9) as [->|H9]; [done|].
  destruct (N.eqb_spec c 10) as [->|H10]; [done|].
  destruct (N.eqb_spec c 12) as [->|H12]; [done|].
  destruct (N.eqb_spec c 13) as [->|H13]; [done|].
  destruct (N.eqb_spec c 34) as [->|H34]; [done|].
  destruct (N.eqb_spec c 92) as [->|H92]; [done|].
  destruct ((c <? 32)%N || isLeadingSurrogate c || isTrailingSurrogate c) eqn:E.
  - apply hex4_unicodeEscape.
    unfold isLeadingSurrogate, isTrailingSurrogate in E.
    repeat (apply orb_prop in E as [E|E]); [apply N.ltb_lt in E; lia| |];
      apply andb_prop in E as [_ E]; apply N.leb_le in E; lia.
  - apply parse_chars_plain; [done|done|].
    apply orb_false_elim in E as [E _]. apply orb_false_elim in E as [E _].
    by apply N.ltb_ge in E.
Qed.

Lemma leading_plain c :
  isLeadingSurrogate c = true → c ≠ 34%N ∧ c ≠ 92%N ∧ (32 ≤ c)%N ∧ (c < 65536)%N.
Proof.
  unfold isLeadingSurrogate. intros [H1 H2]%andb_prop.
  apply N.leb_le in H1, H2. lia.
Qed.

Lemma trailing_plain c :
  isTrailingSurrogate c = true → c ≠ 34%N ∧ c ≠ 92%N ∧ (32 ≤ c)%N.
Proof.
  unfold isTrailingSurrogate. intros [H1 H2]%andb_prop.
  apply N.leb_le in H1, H2. lia.
Qed.

Lemma parse_chars_quoteChars_bounded n : ∀ s rest,
  length s ≤ n → parse_chars (quoteChars s ++ 34%N :: rest) = Some (s, rest).
Proof.
  induction n as [|n IH]; intros [|c t] rest Hn; simpl in Hn; try done; try lia.
  cbn [quoteChars]. destruct (isLeadingSurrogate c) eqn:L.
  - destruct (leading_plain c L) as (H1 & H2 & H3 & H4).
    destruct t as [|d t'].
    + rewrite hex4_unicodeEscape by done. done.
    + destruct (isTrailingSurrogate d) eqn:T.
      * destruct (trailing_plain d T) as (G1 & G2 & G3).
        cbn [app]. rewrite parse_chars_plain by done.
        rewrite parse_chars_plain by done.
        rewrite IH by (simpl in *; lia). done.
      * rewrite <- app_assoc, hex4_unicodeEscape by done.
        rewrite IH by (simpl in *; lia). done.
  - rewrite <- app_assoc, parse_chars_quoteUnit, IH by lia. done.
Qed.

Lemma parse_string_quote s rest :
  parse_string (quoteChars s ++ 34%N :: rest) = Ok (s, rest).
Proof.
  unfold parse_string. by rewrite (parse_chars_quoteChars_bounded (length s)).
Qed.

Lemma json_ind (P : json → Prop) :
  P JNull → (∀ b, P (JBool b)) → (∀ s, P (JString s)) →
  (∀ l, Forall P l → P (JArray l)) →
  (∀ l, Forall (λ kv, P kv.2) l → P (JObject l)) →
  ∀ v, P v.
Proof.
  intros Hnull Hbool Hstring Harray Hobject. fix IH 1.
  intros [|b|s|l|l]; [done|done|done| |].
  - apply Harray. induction l as [|x l IHl]; constructor; [apply IH|exact IHl].
  - apply Hobject. induction l as [|[k x] l IHl]; constructor; [apply IH|exact IHl].
Qed.

Lemma result_bind_Ok {A B} (a : A) (f : A → result B) : Ok a ≫= f = f a.
Proof. done. Qed.

Lemma stringify_head v :
  ∃ c u, stringify v = c :: u ∧ isJsonWhiteSpace c = false ∧ c ≠ 93%N.
Proof. destruct v as [|[]|s|l|l]; by eexists _, _. Qed.

Lemma skip_ws_head c s : isJsonWhiteSpace c = false → skip_ws (c :: s) = c :: s.
Proof. intros H. simpl. by rewrite H. Qed.

Lemma parse_elements_eq n s :
  parse_elements (S n) s
  = '(x, s1) ← parse_value n s;
    match skip_ws s1 with
    | d :: t =>
        if (d =? 44)%N then '(l, s') ← parse_elements n t; Ok (x :: l, s')
        else if (d =? 93)%N then Ok ([x], t)
        else Fail SyntaxError
    | [] => Fail SyntaxError
    end.
Proof. done. Qed.

Lemma parse_members_eq n k s :
  parse_members (S n) (34%N :: quoteChars k ++ 34%N :: 58%N :: s)
  = '(x, s1) ← parse_value n s;
    match skip_ws s1 with
    | d :: t =>
        if (d =? 44)%N then '(l, s') ← parse_members n t; Ok ((k, x) :: l, s')
        else if (d =? 125)%N then Ok ([(k, x)], t)
        else Fail SyntaxError
    | [] => Fail SyntaxError
    end.
Proof.
  cbn [parse_members skip_ws]. change (isJsonWhiteSpace 34) with false. cbn iota.
  change (34 =? 34)%N with true. cbn iota.
  rewrite parse_string_quote, result_bind_Ok. cbn [skip_ws].
  change (isJsonWhiteSpace 58) with false. cbn iota.
  change (58 =? 58)%N with true. done.
Qed.

Lemma join_cons2 sep a b l : join sep (a :: b :: l) = a ++ sep ++ join sep (b :: l).
Proof. done. Qed.

Lemma comma_app s : js "," ++ s = 44%N :: s.
Proof. done. Qed.

Lemma colon_app s : js ":" ++ s = 58%N :: s.
Proof. done. Qed.

Lemma parse_elements_join l :
  l ≠ [] → Forall reads l → Forall canonical l →
  ∀ n rest, list_sum (map (λ x, S (nodes x)) l) ≤ n →
  parse_elements n (join (js ",") (map stringify l) ++ 93%N :: rest) = Ok (l, rest).
Proof.
  induction l as [|x l IHl]; [done|].
  intros _ [Hx Hl]%Forall_cons [Cx Cl]%Forall_cons n rest Hn.
  destruct n as [|n]; [simpl in Hn; lia|]. rewrite parse_elements_eq.
  destruct l as [|y l'].
  - cbn [map join]. rewrite Hx by (simpl in Hn; done || lia).
    rewrite result_bind_Ok. done.
  - cbn [map]. rewrite join_cons2, <- !app_assoc.
    rewrite Hx by (simpl in Hn; done || lia). rewrite result_bind_Ok.
    rewrite comma_app. cbn [skip_ws]. change (isJsonWhiteSpace 44) with false.
    cbn iota. change (44 =? 44)%N with true. cbn iota.
    rewrite IHl; [done|done|done|done|]. simpl in *. lia.
Qed.

Lemma parse_members_join l :
  l ≠ [] → Forall (λ kv, reads kv.2) l → Forall (λ kv, canonical kv.2) l →
  ∀ n rest, list_sum (map (λ '(_, x), S (nodes x)) l) ≤ n →
  parse_members n
    (join (js ",") (map (λ '(k, x), quoteJSONString k ++ js ":" ++ stringify x) l)
       ++ 125%N :: rest)
  = Ok (l, rest).
Proof.
  induction l as [|[k x] l IHl]; [done|].
  intros _ [Hx Hl]%Forall_cons [Cx Cl]%Forall_cons n rest Hn.
  destruct n as [|n]; [simpl in Hn; lia|]. simpl in Hx, Cx.
  destruct l as [|[k' y] l'].
  - cbn [map join]. unfold quoteJSONString.
    rewrite <- !app_assoc. cbn [app]. rewrite <- !app_assoc, colon_app. cbn [app].
    rewrite parse_members_eq.
    rewrite Hx by (simpl in Hn; done || lia). rewrite result_bind_Ok. done.
  - cbn [map]. rewrite join_cons2. unfold quoteJSONString at 1.
    rewrite <- !app_assoc. cbn [app]. rewrite <- !app_assoc, colon_app. cbn [app].
    rewrite parse_members_eq.
    rewrite Hx by (simpl in Hn; done || lia). rewrite result_bind_Ok.
    rewrite comma_app. cbn [skip_ws]. change (isJsonWhiteSpace 44) with false.
    cbn iota. change (44 =? 44)%N with true. cbn iota.
    rewrite IHl; [done|done|done|done|]. simpl in *. lia.
Qed.

Lemma canonical_array l : canonical (JArray l) → Forall canonical l.
Proof.
  cbn [canonical]. induction l as [|x l IHl]; [done|].
  simpl. intros [Hx Hl]. constructor; auto.
Qed.

Lemma canonical_object l :
  canonical (JObject l) →
  build_object l = JObject l ∧ Forall (λ kv, canonical kv.2) l.
Proof.
  cbn [canonical]. intros [Hf Hl]. split; [unfold build_object; by rewrite Hf|].
  clear Hf. induction l as [|[k x] l IHl]; [done|].
  simpl in Hl. destruct Hl as [Hx Hl]. constructor; auto.
Qed.

Lemma parse_value_stringify v : reads v.
Proof.
  induction v as [|b|s|l IHl|l IHl] using json_ind; intros Cv n rest Hn;
    (destruct n as [|n]; [simpl in Hn; lia|]).
  - done.
  - by destruct b.
  - cbn [stringify]. unfold quoteJSONString. cbn [app]. rewrite <- app_assoc.
    cbn [app parse_value skip_ws]. change (isJsonWhiteSpace 34) with false.
    cbn iota. change (34 =? 110)%N with false. change (34 =? 116)%N with false.
    change (34 =? 102)%N with false. change (34 =? 34)%N with true. cbn iota.
    by rewrite parse_string_quote.
  - cbn [stringify]. change (js "[") with [91%N]. change (js "]") with [93%N].
    cbn [app]. rewrite <- app_assoc. cbn [app].
    destruct l as [|x l']; [done|].
    pose proof (parse_elements_join (x :: l') ltac:(done) IHl
                  (canonical_array _ Cv) n rest) as H.
    cbn [nodes] in Hn. destruct (stringify_head x) as (c & u & E & Hc & Hc').
    assert (Hj : ∃ w, join (js ",") (map stringify (x :: l')) = c :: w).
    { destruct l'; cbn [map join]; rewrite E; by eexists. }
    destruct Hj as [w Hw]. rewrite Hw in H |- *. cbn [app parse_value skip_ws].
    change (isJsonWhiteSpace 91) with false. cbn iota.
    change (91 =? 110)%N with false. change (91 =? 116)%N with false.
    change (91 =? 102)%N with false. change (91 =? 34)%N with false.
    change (91 =? 91)%N with true. cbn iota. rewrite skip_ws_head by done.
    apply N.eqb_neq in Hc'. rewrite Hc'.
    cbn [app] in H. rewrite H by (simpl in *; lia). done.
  - cbn [stringify]. change (js "{") with [123%N]. change (js "}") with [125%N].
    cbn [app]. rewrite <- app_assoc. cbn [app].
    destruct l as [|[k x] l']; [done|].
    destruct (canonical_object _ Cv) as [Hb Cl].
    pose proof (parse_members_join ((k, x) :: l') ltac:(done) IHl Cl n rest) as H.
    cbn [nodes] in Hn.
    assert (Hj : ∃ w, join (js ",")
              (map (λ '(k, x), quoteJSONString k ++ js ":" ++ stringify x)
                 ((k, x) :: l')) = 34%N :: w).
    { destruct l' as [|[]]; cbn [map join]; unfold quoteJSONString;
        cbn [app]; by eexists. }
    destruct Hj as [w Hw]. rewrite Hw in H |- *. cbn [app parse_value skip_ws].
    change (isJsonWhiteSpace 123) with false. cbn iota.
    change (isJsonWhiteSpace 34) with false. cbn iota.
    change (123 =? 110)%N with false. change (123 =? 116)%N with false.
    change (123 =? 102)%N with false. change (123 =? 34)%N with false.
    change (123 =? 91)%N with false. change (123 =? 123)%N with true.
    change (34 =? 125)%N with false. cbn iota.
    cbn [app] in H. rewrite H by (simpl in *; lia).
    rewrite result_bind_Ok. by rewrite Hb.
Qed.

Lemma list_sum_step a l : list_sum (a :: l) = a + list_sum l.
Proof. done. Qed.

Lemma size_le_length v : nodes v ≤ length (stringify v).
Proof.
  induction v as [|b|s|l IHl|l IHl] using json_ind; cbn [stringify nodes].
  - simpl. lia.
  - destruct b; simpl; lia.
  - unfold quoteJSONString. simpl. lia.
  - rewrite !length_app. change (length (js "[")) with 1.
    change (length (js "]")) with 1.
    enough (list_sum (map (λ x, S (nodes x)) l)
            ≤ S (length (join (js ",") (map stringify l)))) by lia.
    induction l as [|x l IH]; [simpl; lia|].
    apply Forall_cons in IHl as [Hx Hl]. specialize (IH Hl).
    destruct l as [|y l']; [simpl in *; lia|].
    cbn [map] in *. rewrite join_cons2, !length_app.
    change (length (js ",")) with 1. rewrite list_sum_step. lia.
  - rewrite !length_app. change (length (js "{")) with 1.
    change (length (js "}")) with 1.
    enough (list_sum (map (λ '(_, x), S (nodes x)) l)
            ≤ S (length (join (js ",")
                  (map (λ '(k, x), quoteJSONString k ++ js ":" ++ stringify x) l))))
      by lia.
    induction l as [|[k x] l IH]; [simpl; lia|].
    apply Forall_cons in IHl as [Hx Hl]. specialize (IH Hl). simpl in Hx.
    destruct l as [|[k' y] l'].
    + cbn [map join]. rewrite list_sum_step, !length_app. simpl. lia.
    + cbn [map] in *. rewrite join_cons2, !length_app.
      change (length (js ",")) with 1. rewrite list_sum_step. lia.
Qed.

(** [JSON.parse(JSON.stringify(v))] is [v]. *)
Lemma parse_stringify v : canonical v → Json.parse (stringify v) = Ok v.
Proof.
  intros Cv. unfold Json.parse.
  rewrite <- (app_nil_r (stringify v)) at 2.
  rewrite parse_value_stringify; [done|done|].
  pose proof (size_le_length v). lia.
Qed.

(** ** The parser never runs out of fuel *)

Lemma skip_ws_length s : length (skip_ws s) ≤ length s.
Proof.
  induction s as [|c t IH]; simpl; [done|].
  destruct (isJsonWhiteSpace c); simpl; lia.
Qed.

Lemma skip_ws_cons s c t : skip_ws s = c :: t → length t < length s.
Proof. intros H. pose proof (skip_ws_length s) as Hl. rewrite H in Hl. simpl in Hl. lia. Qed.

Lemma parse_chars_length n : ∀ s r s',
  length s ≤ n → parse_chars s = Some (r, s') → length s' < length s.
Proof.
  induction n as [|n IH]; intros [|c t] r s' Hn; simpl in Hn; try done; try lia.
  cbn [parse_chars]. destruct (c =? 34)%N.
  { intros [= _ <-]. simpl. lia. }
  destruct (c =? 92)%N.
  - destruct t as [|e t1]; [done|]. destruct (e =? 117)%N.
    + destruct t1 as [|h3 [|h2 [|h1 [|h0 t2]]]]; try done.
      destruct (hex4 h3 h2 h1 h0); [|done]. cbn [mbind option_bind].
      destruct (parse_chars t2) as [[r2 s2]|] eqn:E; [|done].
      intros [= _ <-]. apply IH in E; simpl in *; lia.
    + destruct (singleEscape e); [|done]. cbn [mbind option_bind].
      destruct (parse_chars t1) as [[r2 s2]|] eqn:E; [|done].
      intros [= _ <-]. apply IH in E; simpl in *; lia.
  - destruct (c <? 32)%N; [done|].
    destruct (parse_chars t) as [[r2 s2]|] eqn:E; [|done].
    intros [= _ <-]. apply IH in E; simpl in *; lia.
Qed.

Lemma parse_string_length s r s' :
  parse_string s = Ok (r, s') → length s' < length s.
Proof.
  unfold parse_string. destruct (parse_chars s) as [[r2 s2]|] eqn:E; [|done].
  intros [= _ <-]. by eapply parse_chars_length.
Qed.

Lemma expect_length w v s v' s' :
  w ≠ [] → expect w v s = Ok (v', s') → length s' < length s.
Proof.
  unfold expect. intros Hw. destruct (strip_prefix w s) as [t|] eqn:E; [|done].
  intros [= _ <-]. apply strip_prefix_inv in E as ->. rewrite length_app.
  destruct w; [done|]. simpl. lia.
Qed.

Lemma result_bind_inv {A B} (m : result A) (f : A → result B) b :
  m ≫= f = Ok b → ∃ a, m = Ok a ∧ f a = Ok b.
Proof. destruct m as [a|e]; [|done]. intros H. by exists a. Qed.

Lemma result_bind_fail {A B} (m : result A) (f : A → result B) e :
  m ≫= f = Fail e → m = Fail e ∨ ∃ a, m = Ok a ∧ f a = Fail e.
Proof.
  destruct m as [a|e']; intros H; [right; by exists a|left].
  cbv in H. by injection H as ->.
Qed.

(** Every successful call consumes input. *)
Lemma parse_consumes n :
  (∀ s v s', parse_value n s = Ok (v, s') → length s' < length s)
  ∧ (∀ s l s', parse_elements n s = Ok (l, s') → length s' < length s)
  ∧ (∀ s l s', parse_members n s = Ok (l, s') → length s' < length s).
Proof.
  induction n as [|n (IHv & IHe & IHm)]; [done|]. split; [|split].
  - intros s v s'. cbn [parse_value].
    destruct (skip_ws s) as [|c t] eqn:Es; [done|].
    repeat case_match; try done;
      repeat match goal with
             | E : skip_ws _ = _ :: _ |- _ => apply skip_ws_cons in E
             end.
    all: try (intros Hp; apply expect_length in Hp; [simpl in *; lia|done]).
    all: try (intros [= _ <-]; simpl in *; lia).
    all: intros ([x s1] & Hp & [= _ <-])%result_bind_inv;
      first [apply parse_string_length in Hp | apply IHe in Hp | apply IHm in Hp];
      simpl in *; lia.
  - intros s l s'. cbn [parse_elements].
    intros ([x s1] & H & H')%result_bind_inv. apply IHv in H.
    destruct (skip_ws s1) as [|d t] eqn:Es; [done|].
    apply skip_ws_cons in Es. repeat case_match; try done.
    + apply result_bind_inv in H' as ([l' s2] & H' & [= _ <-]).
      apply IHe in H'. lia.
    + injection H' as _ <-. lia.
  - intros s l s'. cbn [parse_members].
    destruct (skip_ws s) as [|q t0] eqn:Es; [done|]. apply skip_ws_cons in Es.
    destruct (q =? 34)%N; [|done].
    intros ([k s0] & H & H')%result_bind_inv. apply parse_string_length in H.
    destruct (skip_ws s0) as [|c t1] eqn:Es0; [done|]. apply skip_ws_cons in Es0.
    destruct (c =? 58)%N; [|done].
    apply result_bind_inv in H' as ([x s1] & H1 & H').
    apply IHv in H1.
    destruct (skip_ws s1) as [|d t] eqn:Es1; [done|]. apply skip_ws_cons in Es1.
    repeat case_match; try done.
    + apply result_bind_inv in H' as ([l' s2] & H' & [= _ <-]).
      apply IHm in H'. lia.
    + injection H' as _ <-. lia.
Qed.

Lemma parse_fuel n :
  (∀ s, 2 * length s + 1 ≤ n → parse_value n s ≠ Fail OutOfFuel)
  ∧ (∀ s, 2 * length s + 2 ≤ n → parse_elements n s ≠ Fail OutOfFuel)
  ∧ (∀ s, 2 * length s + 2 ≤ n → parse_members n s ≠ Fail OutOfFuel).
Proof.
  induction n as [|n (IHv & IHe & IHm)]; [repeat split; intros; lia|].
  split; [|split].
  - intros s Hn. cbn [parse_value].
    destruct (skip_ws s) as [|c t] eqn:Es; [done|].
    unfold expect, parse_string.
    repeat case_match; try done;
      repeat match goal with
             | E : skip_ws _ = _ :: _ |- _ => apply skip_ws_cons in E
             end.
    all: intros [Hf|([? ?] & ? & Hf)]%result_bind_fail; try done;
      revert Hf; first [apply IHe | apply IHm]; simpl in *; lia.
  - intros s Hn. cbn [parse_elements].
    intros [H|([x s1] & H & H')]%result_bind_fail.
    { revert H. apply IHv. lia. }
    apply (proj1 (parse_consumes n)) in H.
    destruct (skip_ws s1) as [|d t] eqn:Es; [done|]. apply skip_ws_cons in Es.
    repeat case_match; try done.
    apply result_bind_fail in H' as [H'|([] & _ & H')]; [|done].
    revert H'. apply IHe. lia.
  - intros s Hn. cbn [parse_members].
    destruct (skip_ws s) as [|q t0] eqn:Es; [done|]. apply skip_ws_cons in Es.
    destruct (q =? 34)%N; [|done].
    intros [H|([k s0] & H & H')]%result_bind_fail.
    { revert H. unfold parse_string. by case_match. }
    apply parse_string_length in H.
    destruct (skip_ws s0) as [|c t1] eqn:Es0; [done|]. apply skip_ws_cons in Es0.
    destruct (c =? 58)%N; [|done].
    apply result_bind_fail in H' as [H'|([x s1] & H1 & H')].
    { revert H'. apply IHv. lia. }
    apply (proj1 (parse_consumes n)) in H1.
    destruct (skip_ws s1) as [|d t] eqn:Es1; [done|]. apply skip_ws_cons in Es1.
    repeat case_match; try done.
    apply result_bind_fail in H' as [H'|([] & _ & H')]; [|done].
    revert H'. apply IHm. lia.
Qed.

(** [JSON.parse] has fuel enough for every text. *)
Lemma parse_has_fuel text : Json.parse text ≠ Fail OutOfFuel.
Proof.
  unfold Json.parse.
  intros [H|([v s'] & _ & H)]%result_bind_fail.
  - revert H. apply (proj1 (parse_fuel _)). lia.
  - by destruct (skip_ws s').
Qed.

(** ** Validation *)

Lemma validateForm_run st :
  validateForm st
  = Ok (bool_decide (size (validation_errors (config st)) = 0),
        mkSt (config st) (validation_errors (config st)) (localStorage st)
          (amplify st) (owner st) (console st)).
Proof. reflexivity. Qed.

Lemma cond_insert_is_Some (b : bool) (i j : string) (x : list N)
    (m : gmap string (list N)) :
  is_Some ((if b then <[i:=x]> m else m) !! j)
  ↔ (b = true ∧ j = i) ∨ is_Some (m !! j).
Proof.
  destruct b.
  - rewrite lookup_insert_is_Some'. split.
    + intros [->|H]; [by left|by right].
    + intros [[_ ->]|H]; [by left|by right].
  - split; [by right|]. by intros [[? _]|H].
Qed.

Lemma validation_errors_lookup c k :
  is_Some (validation_errors c !! k)
  ↔ (k = "userPoolId" ∧ blank (cognito_userPoolId (cognito c)) = true)
    ∨ (k = "userPoolClientId" ∧ blank (cognito_userPoolClientId (cognito c)) = true)
    ∨ (k = "identityPoolId" ∧ blank (cognito_identityPoolId (cognito c)) = true)
    ∨ (k = "cognitoRegion" ∧ blank (cognito_region (cognito c)) = true)
    ∨ (strands_enabled (strands c) = false
       ∧ ((k = "agentId" ∧ blank (bedrock_agentId (bedrock c)) = true)
          ∨ (k = "agentAliasId" ∧ blank (bedrock_agentAliasId (bedrock c)) = true)
          ∨ (k = "bedrockRegion" ∧ blank (bedrock_region (bedrock c)) = true)))
    ∨ (strands_enabled (strands c) = true
       ∧ ((k = "lambdaArn" ∧ blank (strands_lambdaArn (strands c)) = true)
          ∨ (k = "strandsRegion" ∧ blank (strands_region (strands c)) = true))).
Proof.
  cbv beta iota zeta delta [validation_errors validateForm mbind M_bind getConfig
    setErrors mret M_ret config errors].
  rewrite !missing_blank.
  destruct (strands_enabled (strands c)); cbn [negb];
    rewrite !cond_insert_is_Some, lookup_empty, is_Some_alt;
    intuition (done || discriminate).
Qed.

Lemma validateForm_true_iff st st1 :
  validateForm st = Ok (true, st1) ↔
  validation_errors (config st) = ∅
  ∧ st1 = mkSt (config st) ∅ (localStorage st) (amplify st) (owner st) (console st).
Proof.
  rewrite validateForm_run. split.
  - intros [= Hb <-]. apply bool_decide_eq_true in Hb.
    apply map_size_empty_iff in Hb. by rewrite Hb.
  - intros [He ->]. rewrite He. done.
Qed.

Lemma validateForm_false_iff st st1 :
  validateForm st = Ok (false, st1) ↔
  validation_errors (config st) ≠ ∅
  ∧ st1 = mkSt (config st) (validation_errors (config st)) (localStorage st)
            (amplify st) (owner st) (console st).
Proof.
  rewrite validateForm_run. split.
  - intros [= Hb <-]. apply bool_decide_eq_false in Hb.
    split; [|done]. intros He. apply Hb. by rewrite He.
  - intros [He ->]. f_equal. f_equal. apply bool_decide_eq_false.
    by rewrite map_size_empty_iff.
Qed.

(** ** Submitting *)

Lemma handleSubmit_run st :
  handleSubmit st
  = if bool_decide (size (validation_errors (config st)) = 0) then
      Ok ((), mkSt (config st) (validation_errors (config st))
                (<["appConfig" := stringify (config_object (config st))]>
                   (localStorage st))
                (amplify st ++ [auth_of (config st)])
                (owner st ++ [setEditingConfig_call false; onConfigSet_call])
                (console st))
    else
      Ok ((), mkSt (config st) (validation_errors (config st)) (localStorage st)
                (amplify st) (owner st) (console st)).
Proof.
  unfold handleSubmit, mbind, M_bind. rewrite validateForm_run.
  destruct (bool_decide _); [|done].
  cbv beta iota delta [getConfig localStorage_setItem configureAmplify
    Amplify_configure setEditingConfig onConfigSet call_owner config errors
    localStorage amplify owner console].
  by rewrite <- app_assoc.
Qed.

(** ** Loading *)

Lemma stringify_truthy v : truthy_string (stringify v) = true.
Proof. destruct (stringify_head v) as (c & u & -> & _). done. Qed.

Lemma config_object_canonical c : canonical (config_object c).
Proof. vm_compute. done. Qed.

Lemma legacy_object_canonical cg bd : canonical (legacy_object cg bd).
Proof. vm_compute. done. Qed.

Lemma as_config_object c : as_config (config_object c) = Ok c.
Proof. destruct c as [[] [] []]. vm_compute. done. Qed.

Lemma ensure_strands_object c :
  ensure_strands (config_object c) = Ok (config_object c).
Proof. vm_compute. done. Qed.

Lemma ensure_strands_legacy cg bd :
  ensure_strands (legacy_object cg bd)
  = Ok (config_object {| cognito := cg; bedrock := bd; strands := defaultStrands |}).
Proof. vm_compute. done. Qed.

Lemma loadEffect_run st text v v' c (isEditingConfig : bool) :
  localStorage st !! "appConfig" = Some text →
  truthy_string text = true →
  Json.parse text = Ok v → ensure_strands v = Ok v' → as_config v' = Ok c →
  loadEffect isEditingConfig st
  = Ok ((), if isEditingConfig
            then mkSt c (errors st) (localStorage st) (amplify st) (owner st)
                   (console st ++ [js "loading configuration"])
            else mkSt (config st) (errors st) (localStorage st)
                   (amplify st ++ [auth_of c]) (owner st) (console st)).
Proof.
  intros Hs Ht Hp He Hc.
  unfold loadEffect, mbind, M_bind, localStorage_getItem, lift.
  rewrite Hs, Ht, Hp, He, Hc. by destruct isEditingConfig.
Qed.

Lemma loadEffect_stored st c isEditingConfig :
  localStorage st !! "appConfig" = Some (stringify (config_object c)) →
  loadEffect isEditingConfig st
  = Ok ((), if isEditingConfig
            then mkSt c (errors st) (localStorage st) (amplify st) (owner st)
                   (console st ++ [js "loading configuration"])
            else mkSt (config st) (errors st) (localStorage st)
                   (amplify st ++ [auth_of c]) (owner st) (console st)).
Proof.
  intros Hs. eapply loadEffect_run; [done|apply stringify_truthy| | |].
  - apply parse_stringify, config_object_canonical.
  - apply ensure_strands_object.
  - apply as_config_object.
Qed.

Lemma loadEffect_legacy st cg bd isEditingConfig :
  localStorage st !! "appConfig" = Some (stringify (legacy_object cg bd)) →
  let c := {| cognito := cg; bedrock := bd; strands := defaultStrands |} in
  loadEffect isEditingConfig st
  = Ok ((), if isEditingConfig
            then mkSt c (errors st) (localStorage st) (amplify st) (owner st)
                   (console st ++ [js "loading configuration"])
            else mkSt (config st) (errors st) (localStorage st)
                   (amplify st ++ [auth_of c]) (owner st) (console st)).
Proof.
  intros Hs c. eapply loadEffect_run; [done|apply stringify_truthy| | |].
  - apply parse_stringify, legacy_object_canonical.
  - apply ensure_strands_legacy.
  - apply as_config_object.
Qed.

(** ** Effects after a render *)

Lemma extract_empty : extractRegionFromLambdaArn [] = [].
Proof. done. Qed.

Lemma regionEffect_run cfg st :
  regionEffect cfg st
  = Ok ((), if strands_enabled (strands cfg)
               && truthy_string
                    (extractRegionFromLambdaArn (strands_lambdaArn (strands cfg)))
            then with_config
                   (set_field strands_'region
                      (extractRegionFromLambdaArn (strands_lambdaArn (strands cfg)))
                      (config st)) st
            else st).
Proof.
  unfold regionEffect. destruct (strands_enabled (strands cfg)); [|done].
  destruct (strands_lambdaArn (strands cfg)) as [|a arn] eqn:E; [done|].
  cbn [truthy_string andb]. by destruct (extractRegionFromLambdaArn (a :: arn)).
Qed.

Lemma commit_run prev st :
  commit prev st
  = Ok ((), if bool_decide (region_deps prev = region_deps (config st)) then st
            else if strands_enabled (strands (config st))
                    && truthy_string
                         (extractRegionFromLambdaArn
                            (strands_lambdaArn (strands (config st))))
            then with_config
                   (set_field strands_'region
                      (extractRegionFromLambdaArn
                         (strands_lambdaArn (strands (config st))))
                      (config st)) st
            else st).
Proof.
  unfold commit, mbind, M_bind, getConfig.
  destruct (bool_decide _); [done|]. apply regionEffect_run.
Qed.

(** The effects of a render touch nothing but the configuration. *)
Lemma commit_frame prev st :
  ∃ c, commit prev st = Ok ((), with_config c st).
Proof.
  rewrite commit_run. destruct (bool_decide _); [|destruct (_ && _)];
    try (by eexists); exists (config st); by destruct st.
Qed.

Lemma dispatch_edit e st :
  is_edit e →
  ∃ c, dispatch e st
       = Ok ((), mkSt c
                   (match e with
                    | Change f _ => <[error_key f := []]> (errors st)
                    | _ => errors st
                    end)
                   (localStorage st) (amplify st) (owner st) (console st)).
Proof.
  destruct e as [f value|value| |]; intros []; unfold dispatch, mbind, M_bind;
    cbn [getConfig handler]; unfold onChange, onSelect, mbind, M_bind;
    cbn [getErrors handleInputChange setConfig setErrors];
    match goal with |- context [commit ?p ?s] =>
      destruct (commit_frame p s) as [c ->] end; by exists c.
Qed.

Lemma dispatch_Submit st : dispatch Submit st = handleSubmit st.
Proof.
  unfold dispatch, mbind, M_bind. cbn [getConfig handler].
  rewrite handleSubmit_run. destruct (bool_decide _);
    rewrite commit_run; cbn [config]; by rewrite bool_decide_eq_true_2.
Qed.

Lemma dispatch_Cancel st :
  dispatch Cancel st
  = Ok ((), mkSt (config st) (errors st) (localStorage st) (amplify st)
              (owner st ++ [setEditingConfig_call false]) (console st)).
Proof.
  unfold dispatch, mbind, M_bind. cbn [getConfig handler].
  unfold onCancel, setEditingConfig, call_owner.
  rewrite commit_run; cbn [config]; by rewrite bool_decide_eq_true_2.
Qed.



(** ** The preview frame *)

Lemma update_mount prev html :
  PreviewIframe.update prev html (PreviewIframe.mount prev) = PreviewIframe.mount html.
Proof.
  unfold PreviewIframe.update. destruct (decide (prev = html)) as [->|]; done.
Qed.

Lemma last_cons {A} (l : list A) : ∀ h d, List.last (h :: l) d = List.last l h.
Proof.
  induction l as [|a l IH]; intros h d; [done|].
  change (List.last (h :: a :: l) d) with (List.last (a :: l) d).
  by rewrite !IH.
Qed.

Lemma renders_last html later :
  PreviewIframe.renders html later = PreviewIframe.mount (List.last later html).
Proof.
  unfold PreviewIframe.renders. revert html.
  induction later as [|h later IH]; intros html; cbn [PreviewIframe.rerender]; [done|].
  by rewrite update_mount, IH, last_cons.
Qed.

Lemma mount_run isEditingConfig storage st1 :
  loadEffect isEditingConfig (initialState storage) = Ok ((), st1) →
  region_deps (config st1) = region_deps initialConfig →
  mount isEditingConfig (initialState storage) = Ok ((), st1).
Proof.
  intros Hl Hd. unfold mount, mbind, M_bind. cbn [getConfig initialState config].
  change (mkSt initialConfig ∅ storage [] [] []) with (initialState storage).
  rewrite Hl, regionEffect_run. cbn [initialConfig strands defaultStrands
    strands_enabled andb].
  rewrite commit_run. by rewrite bool_decide_eq_true_2.
Qed.

Lemma example_arn :
  lambda_arn (js "arn:aws:lambda:us-west-2:123456789012:function:foo")
    (js "us-west-2").
Proof. exists (js "123456789012"), (js "foo"). by vm_compute. Qed.

(** * The claims *)

(** C1.  Validate recomputes the error mapping from the current
    configuration alone (the previous mapping is discarded) and returns true
    exactly when the new mapping is empty.  The mapping has an entry for a
    key exactly when the key is that of one of the four identity fields and
    the field is empty or white space only, or the alternate agent is
    disabled and it is the key of the primary agent's agentId, agentAliasId
    or region and that field is empty or white space only, or the alternate
    agent is enabled and it is the key of its functionArn or region and that
    field is empty or white space only.  No other key has an entry. *)
Theorem validate_recomputes (st : State) :
  let c := config st in
  validateForm st
  = Ok (bool_decide (validation_errors c = ∅),
        mkSt c (validation_errors c) (localStorage st) (amplify st) (owner st)
          (console st))
  ∧ ∀ k,
      is_Some (validation_errors c !! k)
      ↔ (k = "userPoolId" ∧ blank (cognito_userPoolId (cognito c)) = true)
        ∨ (k = "userPoolClientId"
           ∧ blank (cognito_userPoolClientId (cognito c)) = true)
        ∨ (k = "identityPoolId" ∧ blank (cognito_identityPoolId (cognito c)) = true)
        ∨ (k = "cognitoRegion" ∧ blank (cognito_region (cognito c)) = true)
        ∨ (strands_enabled (strands c) = false
           ∧ ((k = "agentId" ∧ blank (bedrock_agentId (bedrock c)) = true)
              ∨ (k = "agentAliasId"
                 ∧ blank (bedrock_agentAliasId (bedrock c)) = true)
              ∨ (k = "bedrockRegion" ∧ blank (bedrock_region (bedrock c)) = true)))
        ∨ (strands_enabled (strands c) = true
           ∧ ((k = "lambdaArn" ∧ blank (strands_lambdaArn (strands c)) = true)
              ∨ (k = "strandsRegion"
                 ∧ blank (strands_region (strands c)) = true))).
Proof.
  intros c. split; [|apply validation_errors_lookup].
  rewrite validateForm_run. f_equal. f_equal.
  apply bool_decide_ext, map_size_empty_iff.
Qed.

(** C2.  When Validate returns true, Submit writes the serialized
    configuration under the storage key (replacing what was there), passes
    the configuration to the authentication SDK, and calls
    setEditingConfig(false) and then onConfigSet(), each once, leaving the
    configuration in the form as it was.  What was written reads back as
    the submitted record: parsing the stored text gives the object of the
    configuration, and a load in edit mode from any state of the component
    over that storage puts the submitted configuration in the form. *)
Theorem submit_valid (st st1 : State) :
  validateForm st = Ok (true, st1) →
  let text := stringify (config_object (config st)) in
  ∃ st2,
    handleSubmit st = Ok ((), st2)
    ∧ localStorage st2 = <["appConfig" := text]> (localStorage st)
    ∧ amplify st2 = amplify st ++ [auth_of (config st)]
    ∧ owner st2 = owner st ++ [setEditingConfig_call false; onConfigSet_call]
    ∧ config st2 = config st
    ∧ Json.parse text = Ok (config_object (config st))
    ∧ as_config (config_object (config st)) = Ok (config st)
    ∧ ∀ st3, localStorage st3 !! "appConfig" = localStorage st2 !! "appConfig" →
        ∃ st4, loadEffect true st3 = Ok ((), st4) ∧ config st4 = config st.
Proof.
  intros [He ->]%validateForm_true_iff text.
  eexists. split.
  { rewrite handleSubmit_run, He. reflexivity. }
  cbn [localStorage amplify owner config].
  repeat split.
  - apply parse_stringify, config_object_canonical.
  - apply as_config_object.
  - intros st3 H3. rewrite lookup_insert_eq in H3.
    eexists. split; [by apply loadEffect_stored|done].
Qed.

Lemma submit_valid_witness :
  let st := mkSt sampleConfig ∅ ∅ [] [] [] in
  ∃ st2,
    handleSubmit st = Ok ((), st2)
    ∧ localStorage st2
      = <["appConfig" := stringify (config_object sampleConfig)]> ∅
    ∧ amplify st2 = [auth_of sampleConfig]
    ∧ owner st2 = [setEditingConfig_call false; onConfigSet_call]
    ∧ config st2 = sampleConfig
    ∧ Json.parse (stringify (config_object sampleConfig))
      = Ok (config_object sampleConfig)
    ∧ as_config (config_object sampleConfig) = Ok sampleConfig
    ∧ ∀ st3, localStorage st3 !! "appConfig" = localStorage st2 !! "appConfig" →
        ∃ st4, loadEffect true st3 = Ok ((), st4) ∧ config st4 = sampleConfig.
Proof.
  intros st.
  apply (submit_valid st (mkSt sampleConfig ∅ ∅ [] [] [])).
  vm_compute. reflexivity.
Defined.

(** C3.  When Validate returns false, Submit does nothing but leave the
    recomputed error mapping: the storage, the calls made to the
    authentication SDK, the calls made to the owner (so neither
    setEditingConfig nor onConfigSet is called) and the configuration in the
    form are what they were, and the mapping left behind is the one of
    Validate, which is not empty. *)
Theorem submit_invalid (st st1 : State) :
  validateForm st = Ok (false, st1) →
  handleSubmit st = Ok ((), st1)
  ∧ localStorage st1 = localStorage st
  ∧ amplify st1 = amplify st
  ∧ owner st1 = owner st
  ∧ console st1 = console st
  ∧ config st1 = config st
  ∧ errors st1 = validation_errors (config st)
  ∧ errors st1 ≠ ∅.
Proof.
  intros [He ->]%validateForm_false_iff. cbn [localStorage amplify owner config
    errors console]. repeat split; [|done].
  rewrite handleSubmit_run. rewrite bool_decide_eq_false_2; [done|].
  by rewrite map_size_empty_iff.
Qed.

Lemma submit_invalid_witness :
  let st := initialState ∅ in
  let st1 := mkSt initialConfig (validation_errors initialConfig) ∅ [] [] [] in
  handleSubmit st = Ok ((), st1)
  ∧ localStorage st1 = localStorage st
  ∧ amplify st1 = amplify st
  ∧ owner st1 = owner st
  ∧ console st1 = console st
  ∧ config st1 = config st
  ∧ errors st1 = validation_errors (config st)
  ∧ errors st1 ≠ ∅.
Proof.
  intros st st1. apply (submit_invalid st st1). vm_compute. reflexivity.
Defined.

(** C4.  Derived region rule.  With the alternate agent enabled, an edit
    that changes the function identifier leaves the new identifier in the
    form and, once the effects of the next render have run: if the
    identifier matches the pattern, the region of the alternate agent is the
    region token of the identifier and the region input is disabled; if it
    matches for no region, the region is what it was and the input is not
    disabled.  The identifier
    arn:aws:lambda:us-west-2:123456789012:function:foo matches with region
    us-west-2. *)
Theorem derived_region_rule (st : State) (arn : list N) :
  strands_enabled (strands (config st)) = true →
  strands_lambdaArn (strands (config st)) ≠ arn →
  ∃ st',
    dispatch (Change strands_'lambdaArn arn) st = Ok ((), st')
    ∧ strands_lambdaArn (strands (config st')) = arn
    ∧ (∀ region, lambda_arn arn region →
         strands_region (strands (config st')) = region
         ∧ region_input_disabled (config st') = true)
    ∧ ((¬ ∃ region, lambda_arn arn region) →
         strands_region (strands (config st')) = strands_region (strands (config st))
         ∧ region_input_disabled (config st') = false)
    ∧ lambda_arn (js "arn:aws:lambda:us-west-2:123456789012:function:foo")
        (js "us-west-2").
Proof.
  intros Hen Hne. unfold dispatch, mbind, M_bind. cbn [getConfig handler].
  unfold onChange, mbind, M_bind.
  cbn [getErrors handleInputChange setConfig setErrors config errors localStorage
       amplify owner console].
  rewrite commit_run. cbn [config].
  rewrite bool_decide_eq_false_2.
  2: { unfold region_deps. cbn [set_field strands strands_lambdaArn]. congruence. }
  cbn [set_field strands strands_lambdaArn strands_enabled]. rewrite Hen.
  cbn [andb]. destruct (extractRegionFromLambdaArn arn) as [|a r] eqn:E.
  - cbn [truthy_string]. eexists. split; [done|].
    cbn [config strands strands_lambdaArn strands_region]. split; [done|].
    split; [|split; [|apply example_arn]].
    + intros region H. pose proof (extract_complete _ _ H) as Hc.
      destruct H as (account & name & _ & Hr & _). congruence.
    + intros _. unfold region_input_disabled.
      cbn [strands strands_lambdaArn]. by rewrite E.
  - cbn [truthy_string]. eexists. split; [done|].
    unfold with_config.
    cbn [config set_field strands strands_lambdaArn strands_region].
    split; [done|]. split; [|split; [|apply example_arn]].
    + intros region H. apply extract_complete in H.
      unfold region_input_disabled. cbn [strands strands_lambdaArn].
      rewrite E. split; [congruence|done].
    + intros H. apply extract_nil_iff in H. congruence.
Qed.

Lemma derived_region_rule_witness :
  let st := with_config
              (set_field strands_'lambdaArn (js "not-an-arn")
                 {| cognito := cognito sampleConfig; bedrock := bedrock sampleConfig;
                    strands := {| strands_enabled := true; strands_lambdaArn := [];
                                  strands_agentName := js "foo";
                                  strands_region := js "eu-west-1" |} |})
              (initialState ∅) in
  ∃ st',
    dispatch (Change strands_'lambdaArn
                (js "arn:aws:lambda:us-west-2:123456789012:function:foo")) st
    = Ok ((), st')
    ∧ strands_region (strands (config st')) = js "us-west-2"
    ∧ region_input_disabled (config st') = true.
Proof.
  intros st.
  destruct (derived_region_rule st
              (js "arn:aws:lambda:us-west-2:123456789012:function:foo"))
    as (st' & Hd & _ & Hm & _ & Hex).
  - reflexivity.
  - vm_compute. discriminate.
  - exists st'. split; [exact Hd|]. exact (Hm _ Hex).
Defined.

(** C5, as amended.  On mount, when the storage holds a persisted
    configuration and the component is not in edit mode, the load effect
    passes that configuration to the authentication SDK at once; it calls
    none of the owner's callbacks and leaves the form and the storage as
    they were. *)
Theorem load_applies_config (st : State) (c : Config) :
  localStorage st !! "appConfig" = Some (stringify (config_object c)) →
  loadEffect false st
  = Ok ((), mkSt (config st) (errors st) (localStorage st)
              (amplify st ++ [auth_of c]) (owner st) (console st))
  ∧ mount false (initialState (localStorage st))
    = Ok ((), mkSt initialConfig ∅ (localStorage st) [auth_of c] [] []).
Proof.
  intros Hs. split; [by rewrite (loadEffect_stored st c false Hs)|].
  apply mount_run; [|done].
  by rewrite (loadEffect_stored (initialState (localStorage st)) c false Hs).
Qed.

Lemma load_applies_config_witness :
  let storage : gmap string (list N) :=
    {["appConfig" := stringify (config_object sampleConfig)]} in
  loadEffect false (initialState storage)
  = Ok ((), mkSt initialConfig ∅ storage [auth_of sampleConfig] [] [])
  ∧ mount false (initialState storage)
    = Ok ((), mkSt initialConfig ∅ storage [auth_of sampleConfig] [] []).
Proof.
  intros storage.
  apply (load_applies_config (initialState storage) sampleConfig).
  vm_compute. reflexivity.
Defined.

(** C5, as stated, fails: mounting outside edit mode over a stored
    configuration configures the SDK and calls no callback of the owner. *)
Lemma load_signals_nothing :
  ∃ st',
    mount false
      (initialState {["appConfig" := stringify (config_object sampleConfig)]})
    = Ok ((), st')
    ∧ amplify st' = [auth_of sampleConfig]
    ∧ onConfigSet_call ∉ owner st'.
Proof.
  eexists. split; [|split].
  - apply mount_run; [|shelve].
    rewrite (loadEffect_stored _ sampleConfig false); [reflexivity|].
    vm_compute. reflexivity.
  - reflexivity.
  - cbn [owner]. apply not_elem_of_nil.
  Unshelve. reflexivity.
Qed.



(** C7.  Loading a stored configuration that has no strands section fills
    the section with the defaults: not enabled, empty function identifier
    and region, and the default display name of the form.  The cognito and
    bedrock sections are those of the stored record: in edit mode they
    arrive in the form with the default section, outside edit mode the
    stored cognito section is what the SDK receives. *)
Theorem legacy_backfill (st : State) (cg : Cognito) (bd : Bedrock) :
  localStorage st !! "appConfig" = Some (stringify (legacy_object cg bd)) →
  let c := {| cognito := cg; bedrock := bd; strands := defaultStrands |} in
  Json.parse (stringify (legacy_object cg bd)) = Ok (legacy_object cg bd)
  ∧ ensure_strands (legacy_object cg bd) = Ok (config_object c)
  ∧ loadEffect true st
    = Ok ((), mkSt c (errors st) (localStorage st) (amplify st) (owner st)
                (console st ++ [js "loading configuration"]))
  ∧ loadEffect false st
    = Ok ((), mkSt (config st) (errors st) (localStorage st)
                (amplify st ++ [auth_of c]) (owner st) (console st))
  ∧ mount true (initialState (localStorage st))
    = Ok ((), mkSt c ∅ (localStorage st) [] [] [js "loading configuration"])
  ∧ strands_enabled (strands c) = false
  ∧ strands_lambdaArn (strands c) = []
  ∧ strands_region (strands c) = []
  ∧ strands_agentName (strands c) = strands_agentName (strands initialConfig)
  ∧ strands_agentName (strands c) = js "Strandsエージェント".
Proof.
  intros Hs c. split; [apply parse_stringify, legacy_object_canonical|].
  split; [apply ensure_strands_legacy|].
  split; [by rewrite (loadEffect_legacy st cg bd true Hs)|].
  split; [by rewrite (loadEffect_legacy st cg bd false Hs)|].
  split; [|done].
  apply mount_run; [|done].
  by rewrite (loadEffect_legacy (initialState (localStorage st)) cg bd true Hs).
Qed.

Lemma legacy_backfill_witness :
  let storage : gmap string (list N) :=
    {["appConfig" :=
        stringify (legacy_object (cognito sampleConfig) (bedrock sampleConfig))]} in
  mount true (initialState storage)
  = Ok ((), mkSt sampleConfig ∅ storage [] [] [js "loading configuration"]).
Proof.
  intros storage.
  apply (legacy_backfill (initialState storage) (cognito sampleConfig)
           (bedrock sampleConfig)).
  vm_compute. reflexivity.
Defined.

(** C8.  An edit of a field replaces the entry of that field in the error
    mapping by the empty message and leaves every other entry as it was,
    whatever the configuration; the agent selector and Cancel leave the
    mapping alone; only Submit recomputes it. *)
Theorem edit_clears_one_error (e : event) (st : State) :
  ∃ st',
    dispatch e st = Ok ((), st')
    ∧ match e with
      | Change f _ =>
          errors st' = <[error_key f := []]> (errors st)
          ∧ errors st' !! error_key f = Some []
          ∧ ∀ k, k ≠ error_key f → errors st' !! k = errors st !! k
      | Select _ | Cancel => errors st' = errors st
      | Submit => errors st' = validation_errors (config st)
      end.
Proof.
  destruct e as [f value|value| |].
  - destruct (dispatch_edit (Change f value) st I) as [c ->]. eexists.
    split; [done|]. cbn [errors]. split; [done|]. split.
    + apply lookup_insert_eq.
    + intros k Hk. by apply lookup_insert_ne.
  - destruct (dispatch_edit (Select value) st I) as [c ->]. by eexists.
  - rewrite dispatch_Submit, handleSubmit_run.
    destruct (bool_decide _); by eexists.
  - rewrite dispatch_Cancel. by eexists.
Qed.

(** C9.  Whatever was rendered before, once the html input has changed from
    A to B the srcdoc of the frame is B, and the frame is the one that a
    first render with B gives: nothing of A, nor of any earlier input, is
    left in it. *)
Theorem preview_replaced (first : list N) (earlier : list (list N)) (A B : list N) :
  let frame := PreviewIframe.renders first (earlier ++ [A; B]) in
  PreviewIframe.content frame = Some B
  ∧ frame = PreviewIframe.mount B
  ∧ ∀ first' earlier' A',
      PreviewIframe.renders first' (earlier' ++ [A'; B]) = frame.
Proof.
  assert (H : ∀ f (l : list (list N)) a, List.last (l ++ [a; B]) f = B).
  { intros f l a. change (l ++ [a; B]) with (l ++ [a] ++ [B]).
    by rewrite app_assoc, last_last. }
  intros frame. unfold frame. rewrite renders_last, H.
  split; [done|]. split; [done|]. intros. by rewrite renders_last, H.
Qed.

(** C10, as amended.  The region extraction returns the empty string or a
    non-empty token of lowercase letters, digits and hyphens that is the
    fourth colon-separated segment of the input.  It returns the empty
    string when the input does not begin with arn:aws:lambda: (compared
    code unit by code unit), when the account segment (the fifth) has a
    character that is not a digit, and when nothing follows the sixth
    colon. *)
Theorem extract_region_spec :
  (∀ arn,
     extractRegionFromLambdaArn arn = []
     ∨ (extractRegionFromLambdaArn arn ≠ []
        ∧ forallb region_char (extractRegionFromLambdaArn arn) = true
        ∧ segments arn !! 3 = Some (extractRegionFromLambdaArn arn)))
  ∧ (∀ arn,
       (¬ ∃ t, arn = js "arn:aws:lambda:" ++ t) →
       extractRegionFromLambdaArn arn = [])
  ∧ (∀ arn account,
       segments arn !! 4 = Some account → forallb digit account = false →
       extractRegionFromLambdaArn arn = [])
  ∧ (∀ arn pre,
       length pre = 6 → segments arn = pre ++ [[]] →
       extractRegionFromLambdaArn arn = []).
Proof.
  split; [|split; [|split]].
  - intros arn. destruct (extractRegionFromLambdaArn arn) as [|a r] eqn:E;
      [by left|right].
    assert (H : lambda_arn arn (a :: r)).
    { rewrite <- E. apply extract_sound. by rewrite E. }
    split; [done|]. split.
    + by destruct H as (account & name & _ & _ & Hrc & _).
    + apply lambda_arn_segments in H as (account & name & -> & _). done.
  - intros arn Hp. apply extract_nil_iff. intros (region & account & name & -> & _).
    apply Hp. by eexists.
  - intros arn account Hs Hd. apply extract_nil_iff. intros (region & H).
    apply lambda_arn_segments in H as (account' & name & Hseg & Hac & _).
    rewrite Hseg in Hs. injection Hs as ->. congruence.
  - intros arn pre Hl Hs. apply extract_nil_iff. intros (region & H).
    apply lambda_arn_segments in H as (account & name & Hseg & _ & Hn).
    rewrite Hs in Hseg.
    destruct pre as [|p0 [|p1 [|p2 [|p3 [|p4 [|p5 [|p6 pre]]]]]]]; try done.
    injection Hseg as _ _ _ _ _ _ Hseg. symmetry in Hseg.
    by apply split_on_single_nil in Hseg.
Qed.

Lemma extract_region_spec_witness :
  (extractRegionFromLambdaArn
     (js "arn:aws:lambda:us-west-2:123456789012:function:foo") ≠ []
   ∧ segments (js "arn:aws:lambda:us-west-2:123456789012:function:foo") !! 3
     = Some (js "us-west-2"))
  ∧ extractRegionFromLambdaArn
      (js "ARN:AWS:LAMBDA:us-west-2:123456789012:function:foo") = []
  ∧ extractRegionFromLambdaArn
      (js "arn:aws:lambda:us-west-2:12345678901x:function:foo") = []
  ∧ extractRegionFromLambdaArn
      (js "arn:aws:lambda:us-west-2:123456789012:function:") = [].
Proof.
  destruct extract_region_spec as (H1 & H2 & H3 & H4).
  split; [|split; [|split]].
  - destruct (H1 (js "arn:aws:lambda:us-west-2:123456789012:function:foo"))
      as [H|(Hne & _ & Hs)]; [vm_compute in H; discriminate|].
    split; [exact Hne|]. rewrite Hs. vm_compute. reflexivity.
  - apply H2. intros [t Ht]. vm_compute in Ht. discriminate.
  - apply (H3 _ (js "12345678901x")); vm_compute; reflexivity.
  - apply (H4 _ [js "arn"; js "aws"; js "lambda"; js "us-west-2";
                 js "123456789012"; js "function"]); vm_compute; reflexivity.
Defined.

(** C10, as stated, fails: on
    arn:aws:lambda:us-west-2:123456789012:function:foo the function returns
    a non-empty token, and the third colon-separated segment of the input
    is lambda, not that token. *)
Lemma extract_region_not_third_segment :
  extractRegionFromLambdaArn
    (js "arn:aws:lambda:us-west-2:123456789012:function:foo") ≠ []
  ∧ segments (js "arn:aws:lambda:us-west-2:123456789012:function:foo") !! 2
    = Some (js "lambda")
  ∧ segments (js "arn:aws:lambda:us-west-2:123456789012:function:foo") !! 2
    ≠ Some (extractRegionFromLambdaArn
              (js "arn:aws:lambda:us-west-2:123456789012:function:foo")).
Proof. vm_compute. repeat split; discriminate. Qed.

(** * Further properties of the form and of the frame *)

(** ** Field updates *)

(** X1.  handleInputChange replaces the value of the addressed field and of
    no other: afterwards the input of that field shows the new value, every
    other input shows what it showed, the agent selection is the same, and
    nothing outside the configuration has changed. *)
Theorem handleInputChange_sets_one_field (f : field) (value : list N) (st : State) :
  ∃ c,
    handleInputChange f value st = Ok ((), with_config c st)
    ∧ input_value f c = value
    ∧ (∀ g, g ≠ f → input_value g c = input_value g (config st))
    ∧ strands_enabled (strands c) = strands_enabled (strands (config st)).
Proof.
  exists (set_field f value (config st)). split; [done|].
  destruct f; (split; [done|]); (split; [|done]); intros g Hg; by destruct g.
Qed.

(** X2.  Two updates of the same field leave the later value, and updates
    of two different fields give the same form in either order. *)
Theorem handleInputChange_composes (f g : field) (v w : list N) (st : State) :
  (handleInputChange f w;; handleInputChange f v) st = handleInputChange f v st
  ∧ (f ≠ g →
     (handleInputChange g w;; handleInputChange f v) st
     = (handleInputChange f v;; handleInputChange g w) st).
Proof.
  split.
  - by destruct f.
  - intros Hfg. destruct f, g; done.
Qed.

Lemma handleInputChange_composes_witness :
  (handleInputChange bedrock_'agentId (js "UF1W5WKVYI");;
   handleInputChange cognito_'region (js "us-east-1")) (initialState ∅)
  = (handleInputChange cognito_'region (js "us-east-1");;
     handleInputChange bedrock_'agentId (js "UF1W5WKVYI")) (initialState ∅).
Proof.
  apply (handleInputChange_composes cognito_'region bedrock_'agentId
           (js "us-east-1") (js "UF1W5WKVYI") (initialState ∅)).
  discriminate.
Defined.

(** ** More on validation *)

Lemma validation_errors_ext c c' :
  strands_enabled (strands c) = strands_enabled (strands c') →
  (∀ f, f ≠ bedrock_'agentName → f ≠ strands_'agentName → rendered c f = true →
        missing (input_value f c) = missing (input_value f c')) →
  validation_errors c = validation_errors c'.
Proof.
  intros He Hf.
  pose proof (Hf cognito_'userPoolId) as H1.
  pose proof (Hf cognito_'userPoolClientId) as H2.
  pose proof (Hf cognito_'identityPoolId) as H3.
  pose proof (Hf cognito_'region) as H4.
  pose proof (Hf bedrock_'agentId) as H5.
  pose proof (Hf bedrock_'agentAliasId) as H6.
  pose proof (Hf bedrock_'region) as H7.
  pose proof (Hf strands_'lambdaArn) as H8.
  pose proof (Hf strands_'region) as H9.
  cbn [input_value rendered] in *.
  cbv beta iota zeta delta [validation_errors validateForm mbind M_bind getConfig
    setErrors mret M_ret config errors].
  rewrite <- He. destruct (strands_enabled (strands c)); cbn [negb] in *.
  - by rewrite H1, H2, H3, H4, H8, H9.
  - by rewrite H1, H2, H3, H4, H5, H6, H7.
Qed.

(** X3.  Validation never looks at a field that the form does not render
    (the fields of the agent type that is not selected) nor at the two agent
    display names: changing such a field changes no entry of the error
    mapping. *)
Theorem validation_ignores_unused_fields (f : field) (value : list N) (c : Config) :
  rendered c f = false ∨ f = bedrock_'agentName ∨ f = strands_'agentName →
  validation_errors (set_field f value c) = validation_errors c.
Proof.
  intros H. apply validation_errors_ext.
  - by destruct f.
  - intros g Hg1 Hg2 Hr. f_equal.
    destruct H as [H|[->| ->]]; [|by destruct g..].
    destruct f, g; try done; cbn [rendered set_field strands strands_enabled] in *;
      congruence.
Qed.

Lemma validation_ignores_unused_fields_witness :
  validation_errors
    (set_field strands_'lambdaArn (js "not-an-arn") sampleConfig)
  = validation_errors sampleConfig.
Proof.
  apply (validation_ignores_unused_fields strands_'lambdaArn (js "not-an-arn")
           sampleConfig).
  left. reflexivity.
Defined.

Lemma missing_padded before s after :
  blank before = true → blank after = true →
  missing (before ++ s ++ after) = missing s.
Proof.
  intros Hb Ha. rewrite !missing_blank, !blank_app, Hb, Ha.
  by rewrite andb_true_r.
Qed.

(** X4.  White space around the value of a field never changes the verdict
    of validation: padding a field with white space on either side leaves
    the error mapping as it is. *)
Theorem validation_ignores_padding (f : field) (before after : list N) (c : Config) :
  blank before = true → blank after = true →
  validation_errors (set_field f (before ++ input_value f c ++ after) c)
  = validation_errors c.
Proof.
  intros Hb Ha. apply validation_errors_ext.
  - by destruct f.
  - intros g _ _ _.
    destruct f, g; try done; cbn [input_value set_field cognito bedrock strands
      cognito_userPoolId cognito_userPoolClientId cognito_region
      cognito_identityPoolId bedrock_agentName bedrock_agentId
      bedrock_agentAliasId bedrock_region strands_enabled strands_lambdaArn
      strands_agentName strands_region]; by apply missing_padded.
Qed.

Lemma validation_ignores_padding_witness :
  validation_errors
    (set_field cognito_'region
       (js " " ++ input_value cognito_'region sampleConfig ++ js "　") sampleConfig)
  = validation_errors sampleConfig.
Proof.
  apply (validation_ignores_padding cognito_'region (js " ") (js "　")
           sampleConfig); reflexivity.
Defined.

Lemma cond_insert_lookup (b : bool) (i j : string) (x y : list N)
    (m : gmap string (list N)) :
  (if b then <[i:=x]> m else m) !! j = Some y → y = x ∨ m !! j = Some y.
Proof.
  destruct b; [|by right].
  destruct (decide (i = j)) as [->|Hij].
  - rewrite lookup_insert_eq. intros [= ->]. by left.
  - rewrite lookup_insert_ne by done. by right.
Qed.

Lemma validation_errors_message c k message :
  validation_errors c !! k = Some message → truthy_string message = true.
Proof.
  cbv beta iota zeta delta [validation_errors validateForm mbind M_bind getConfig
    setErrors mret M_ret config errors].
  destruct (strands_enabled (strands c)); cbn [negb]; intros H;
    repeat (apply cond_insert_lookup in H as [->|H]; [by vm_compute|]);
    by rewrite lookup_empty in H.
Qed.

(** X5.  Every entry that validation produces is shown: its message is not
    empty, and it is the errorText of a form field that the form renders for
    the configuration at hand. *)
Theorem validation_errors_are_displayed (c : Config) (k : string) (message : list N) :
  validation_errors c !! k = Some message →
  truthy_string message = true
  ∧ ∃ f, rendered c f = true
         ∧ error_key f = k
         ∧ errorText f (validation_errors c) = Some message.
Proof.
  intros H. split; [by eapply validation_errors_message|].
  assert (Hk : is_Some (validation_errors c !! k)) by (by rewrite H).
  apply validation_errors_lookup in Hk. unfold errorText.
  destruct Hk as [[-> _]|[[-> _]|[[-> _]|[[-> _]|[[He Hk]|[He Hk]]]]]].
  - by exists cognito_'userPoolId.
  - by exists cognito_'userPoolClientId.
  - by exists cognito_'identityPoolId.
  - by exists cognito_'region.
  - destruct Hk as [[-> _]|[[-> _]|[-> _]]];
      [exists bedrock_'agentId|exists bedrock_'agentAliasId|exists bedrock_'region];
      cbn [rendered]; by rewrite He.
  - destruct Hk as [[-> _]|[-> _]];
      [exists strands_'lambdaArn|exists strands_'region];
      cbn [rendered]; by rewrite He.
Qed.

Lemma validation_errors_are_displayed_witness :
  truthy_string (js "ユーザープールIDは必須です") = true
  ∧ ∃ f, rendered initialConfig f = true
         ∧ error_key f = "userPoolId"
         ∧ errorText f (validation_errors initialConfig)
           = Some (js "ユーザープールIDは必須です").
Proof.
  apply (validation_errors_are_displayed initialConfig "userPoolId").
  vm_compute. reflexivity.
Defined.

(** ** More on loading *)



(** X7.  With nothing stored under the key, or with the empty string stored,
    the load effect does nothing at all, and a mount leaves the component in
    its initial state with the default configuration. *)
Theorem nothing_stored_nothing_loaded (isEditingConfig : bool) (st : State) :
  localStorage st !! "appConfig" = None ∨ localStorage st !! "appConfig" = Some [] →
  loadEffect isEditingConfig st = Ok ((), st)
  ∧ mount isEditingConfig (initialState (localStorage st))
    = Ok ((), initialState (localStorage st)).
Proof.
  intros H.
  assert (Hl : ∀ s, localStorage s = localStorage st →
                    loadEffect isEditingConfig s = Ok ((), s)).
  { intros s Hs. unfold loadEffect, mbind, M_bind, localStorage_getItem.
    rewrite Hs. by destruct H as [-> | ->]. }
  split; [by apply Hl|]. apply mount_run; [by apply Hl|done].
Qed.

Lemma nothing_stored_nothing_loaded_witness :
  loadEffect true (initialState ∅) = Ok ((), initialState ∅)
  ∧ mount true (initialState ∅) = Ok ((), initialState ∅).
Proof.
  apply (nothing_stored_nothing_loaded true (initialState ∅)).
  left. reflexivity.
Defined.

(** X8.  When the stored text is the JSON of null, of a boolean or of a
    string, the load effect throws a TypeError in either mode: null has no
    properties to read, and the default strands section cannot be assigned
    to a boolean or a string. *)
Theorem stored_primitive_throws (isEditingConfig : bool) (st : State) (v : json) :
  primitive v →
  localStorage st !! "appConfig" = Some (stringify v) →
  loadEffect isEditingConfig st = Fail TypeError.
Proof.
  intros Hv Hs. unfold loadEffect, mbind, M_bind, localStorage_getItem, lift.
  rewrite Hs, stringify_truthy, parse_stringify by (by destruct v).
  by destruct v.
Qed.

Lemma stored_primitive_throws_witness :
  loadEffect false (initialState {["appConfig" := js "null"]}) = Fail TypeError.
Proof.
  apply (stored_primitive_throws false
           (initialState {["appConfig" := js "null"]}) JNull).
  - exact I.
  - vm_compute. reflexivity.
Defined.

Lemma stored_object_falsy cg bd v :
  truthy (Some v) = false →
  canonical (stored_object cg bd v)
  ∧ ensure_strands (stored_object cg bd v)
    = Ok (config_object {| cognito := cg; bedrock := bd; strands := defaultStrands |}).
Proof.
  destruct v as [|[]|[|]| |]; try done; intros _; by vm_compute.
Qed.

(** X9.  A stored configuration whose strands property is null, false or
    the empty string is loaded like one without the property: the strands
    section becomes the default one, and the cognito and bedrock sections
    are the stored ones. *)
Theorem falsy_strands_is_backfilled (isEditingConfig : bool) (st : State)
    (cg : Cognito) (bd : Bedrock) (v : json) :
  truthy (Some v) = false →
  localStorage st !! "appConfig" = Some (stringify (stored_object cg bd v)) →
  let c := {| cognito := cg; bedrock := bd; strands := defaultStrands |} in
  loadEffect isEditingConfig st
  = Ok ((), if isEditingConfig
            then mkSt c (errors st) (localStorage st) (amplify st) (owner st)
                   (console st ++ [js "loading configuration"])
            else mkSt (config st) (errors st) (localStorage st)
                   (amplify st ++ [auth_of c]) (owner st) (console st)).
Proof.
  intros Hv Hs c. destruct (stored_object_falsy cg bd v Hv) as [Hc He].
  eapply loadEffect_run; [done|apply stringify_truthy| |done|].
  - by apply parse_stringify.
  - apply as_config_object.
Qed.

Lemma falsy_strands_is_backfilled_witness :
  let storage : gmap string (list N) :=
    {["appConfig" :=
        stringify (stored_object (cognito sampleConfig) (bedrock sampleConfig) JNull)]} in
  loadEffect true (initialState storage)
  = Ok ((), mkSt sampleConfig ∅ storage [] [] [js "loading configuration"]).
Proof.
  intros storage.
  apply (falsy_strands_is_backfilled true (initialState storage)
           (cognito sampleConfig) (bedrock sampleConfig) JNull).
  - reflexivity.
  - vm_compute. reflexivity.
Defined.

(** ** The derived region as an invariant *)

Lemma region_consistent_ext c c' :
  strands c' = strands c → region_consistent c → region_consistent c'.
Proof.
  unfold region_consistent, region_input_disabled. by intros ->.
Qed.

Lemma region_consistent_enabled c :
  strands_enabled (strands c) = false → region_consistent c.
Proof. unfold region_consistent. congruence. Qed.

Lemma commit_consistent prev st :
  (region_deps prev = region_deps (config st) → region_consistent (config st)) →
  ∃ st', commit prev st = Ok ((), st')
         ∧ region_consistent (config st')
         ∧ (region_consistent (config st) → st' = st)
         ∧ (∀ f, f ≠ strands_'region →
                 input_value f (config st') = input_value f (config st))
         ∧ strands_enabled (strands (config st'))
           = strands_enabled (strands (config st))
         ∧ st' = with_config (config st') st.
Proof.
  intros H. rewrite commit_run.
  destruct (bool_decide _) eqn:Hd.
  { apply bool_decide_eq_true in Hd. exists st.
    repeat split; auto. by destruct st. }
  destruct (strands_enabled (strands (config st))) eqn:He; cbn [andb].
  2: { exists st. repeat split; auto; [by apply region_consistent_enabled|].
       by destruct st. }
  destruct (truthy_string _) eqn:Ht.
  - eexists. split; [done|]. unfold with_config. cbn [config].
    repeat split.
    + intros Hc. specialize (Hc He Ht). destruct st as [[? ? []] ? ? ? ? ?].
      cbn in *. by rewrite <- Hc.
    + intros f Hf. by destruct f.
    + by destruct (config st) as [? ? []].
  - exists st. repeat split; auto; [|by destruct st].
    intros _ Hdis. unfold region_input_disabled in Hdis. congruence.
Qed.



Lemma dispatch_consistent e st :
  can_fire (config st) e = true →
  region_consistent (config st) →
  ∃ st', dispatch e st = Ok ((), st') ∧ region_consistent (config st').
Proof.
  intros Hfire Hc. destruct e as [f value|value| |].
  - unfold dispatch, mbind, M_bind. cbn [getConfig handler].
    unfold onChange, mbind, M_bind.
    cbn [getErrors handleInputChange setConfig setErrors].
    match goal with |- context [commit ?p ?s] =>
      destruct (commit_consistent p s) as (st' & -> & H1 & _)
    end; [|by exists st'].
    cbn [config]. unfold region_deps. intros [= Ha He].
    cbn [can_fire] in Hfire. apply andb_prop in Hfire as [Hr Hd].
    apply negb_true_iff in Hd.
    destruct f; try (revert Hc; by apply region_consistent_ext).
    + revert Hc. unfold region_consistent, region_input_disabled. by cbn.
    + revert Hc. apply region_consistent_ext.
      destruct (config st) as [? ? []]. cbn in *. by rewrite Ha.
    + cbn [input_disabled] in Hd. unfold region_consistent.
      unfold region_input_disabled in *. cbn. congruence.
  - unfold dispatch, mbind, M_bind. cbn [getConfig handler]. unfold onSelect.
    cbn [setConfig].
    match goal with |- context [commit ?p ?s] =>
      destruct (commit_consistent p s) as (st' & -> & H1 & _)
    end; [|by exists st'].
    cbn [config]. unfold region_deps. cbn. intros [= He].
    revert Hc. apply region_consistent_ext.
    destruct (config st) as [? ? []]. cbn in *. by rewrite <- He.
  - rewrite dispatch_Submit, handleSubmit_run.
    destruct (bool_decide _); by eexists.
  - rewrite dispatch_Cancel. by eexists.
Qed.

(** X11.  From the mount of the component on and through every event that
    its form can deliver, whenever the strands agent is selected and the
    region input is disabled, the region in the form is the one extracted
    from the function identifier in the form. *)
Theorem region_follows_identifier (st : State) :
  reachable st → region_consistent (config st).
Proof.
  induction 1 as [b storage st Hm|st e st' _ IH Hfire Hd].
  - revert Hm. unfold mount, mbind, M_bind. cbn [getConfig initialState config].
    destruct (loadEffect b _) as [[[] st1]|]; [|done].
    rewrite regionEffect_run.
    cbn [initialConfig strands defaultStrands strands_enabled andb].
    destruct (commit_consistent initialConfig st1) as (st' & -> & H1 & _).
    + unfold region_deps. cbn. intros [= _ He].
      by apply region_consistent_enabled.
    + by intros [= <-].
  - destruct (dispatch_consistent e st Hfire IH) as (st'' & Hd' & Hc).
    rewrite Hd in Hd'. by injection Hd' as <-.
Qed.

Lemma region_follows_identifier_witness :
  let arn := js "arn:aws:lambda:us-west-2:123456789012:function:foo" in
  let strands1 := {| strands_enabled := true; strands_lambdaArn := [];
                     strands_agentName := js "Strandsエージェント";
                     strands_region := [] |} in
  let strands2 := {| strands_enabled := true; strands_lambdaArn := arn;
                     strands_agentName := js "Strandsエージェント";
                     strands_region := js "us-west-2" |} in
  let st1 := mkSt {| cognito := cognito initialConfig; bedrock := bedrock initialConfig;
                     strands := strands1 |} ∅ ∅ [] [] [] in
  let st2 := mkSt {| cognito := cognito initialConfig; bedrock := bedrock initialConfig;
                     strands := strands2 |} {["lambdaArn" := []]} ∅ [] [] [] in
  dispatch (Change strands_'lambdaArn arn) st1 = Ok ((), st2)
  ∧ region_consistent (config st2).
Proof.
  intros arn strands1 strands2 st1 st2.
  assert (H2 : dispatch (Change strands_'lambdaArn arn) st1 = Ok ((), st2))
    by (vm_compute; reflexivity).
  split; [exact H2|].
  apply (region_follows_identifier st2).
  apply (reachable_dispatch st1 (Change strands_'lambdaArn arn) st2);
    [|reflexivity|exact H2].
  apply (reachable_dispatch (initialState ∅) (Select "strands") st1);
    [|reflexivity|vm_compute; reflexivity].
  apply (reachable_mount true ∅). vm_compute. reflexivity.
Defined.

(** ** What gets stored *)

Lemma dispatch_storage e st :
  ∃ st', dispatch e st = Ok ((), st')
    ∧ (localStorage st' = localStorage st
       ∨ ∃ c, validation_errors c = ∅
              ∧ localStorage st'
                = <["appConfig" := stringify (config_object c)]> (localStorage st)).
Proof.
  destruct e as [f value|value| |].
  - destruct (dispatch_edit (Change f value) st I) as [c ->].
    eexists. split; [done|]. by left.
  - destruct (dispatch_edit (Select value) st I) as [c ->].
    eexists. split; [done|]. by left.
  - rewrite dispatch_Submit, handleSubmit_run.
    destruct (bool_decide _) eqn:Hb; eexists; (split; [done|]); [right|by left].
    apply bool_decide_eq_true, map_size_empty_iff in Hb.
    by exists (config st).
  - rewrite dispatch_Cancel. eexists. split; [done|]. by left.
Qed.

(** X12.  No sequence of events of the form throws, and whatever the
    sequence, the storage afterwards is the storage before, or the storage
    before with the serialization of a configuration that passes validation
    under the key of the component: nothing else is ever written. *)
Theorem only_valid_configurations_are_stored (es : list event) (st : State) :
  ∃ st',
    dispatch_all es st = Ok ((), st')
    ∧ (localStorage st' = localStorage st
       ∨ ∃ c, validation_errors c = ∅
              ∧ localStorage st'
                = <["appConfig" := stringify (config_object c)]> (localStorage st)).
Proof.
  revert st. induction es as [|e es IH]; intros st; cbn [dispatch_all].
  - exists st. split; [done|]. by left.
  - destruct (dispatch_storage e st) as (st1 & Hd & H1).
    destruct (IH st1) as (st' & Hd' & H').
    exists st'. unfold mbind, M_bind. rewrite Hd. split; [done|].
    destruct H' as [H'|(c' & Hv' & H')]; rewrite H'.
    + exact H1.
    + right. exists c'. split; [done|].
      destruct H1 as [->|(c & _ & ->)]; [done|]. by rewrite insert_insert_eq.
Qed.

(** X13.  Submitting twice in a row: the second Submit leaves the storage,
    the form and the error mapping as the first left them, and after a
    failed Submit a second one changes nothing at all. *)
Theorem submit_twice (st : State) :
  ∃ st1 st2,
    handleSubmit st = Ok ((), st1)
    ∧ handleSubmit st1 = Ok ((), st2)
    ∧ localStorage st2 = localStorage st1
    ∧ config st2 = config st1
    ∧ errors st2 = errors st1
    ∧ (validation_errors (config st) ≠ ∅ → st2 = st1).
Proof.
  rewrite handleSubmit_run. destruct (bool_decide _) eqn:Hb.
  - eexists. eexists. split; [done|]. rewrite handleSubmit_run.
    cbn [config]. rewrite Hb. split; [done|].
    cbn [localStorage config errors]. split; [by rewrite insert_insert_eq|].
    repeat split.
    apply bool_decide_eq_true, map_size_empty_iff in Hb. by intros [].
  - eexists. eexists. split; [done|]. rewrite handleSubmit_run.
    cbn [config]. rewrite Hb. done.
Qed.

(** ** The agent type selector *)

(** X14.  Choosing an option of the agent type selector makes it the
    selected option and renders, besides the cognito fields, the fields of
    that agent and no others; no input but the strands region changes its
    value and the error mapping is untouched.  Choosing the option that is
    already selected changes nothing. *)
Theorem select_agent_type (value : string) (st : State) :
  value ∈ select_options.*1 →
  ∃ st',
    dispatch (Select value) st = Ok ((), st')
    ∧ (selectedOption (config st')).1 = value
    ∧ selectedOption (config st') ∈ select_options
    ∧ (∀ f, rendered (config st') f = true
            ↔ section_of f = "cognito"%string ∨ section_of f = value)
    ∧ (∀ f, f ≠ strands_'region →
            input_value f (config st') = input_value f (config st))
    ∧ errors st' = errors st
    ∧ (value = (selectedOption (config st)).1 → st' = st).
Proof.
  intros Hv.
  assert (Hval : value = "bedrock"%string ∨ value = "strands"%string).
  { unfold select_options in Hv. cbn [fmap list_fmap fst] in Hv.
    apply elem_of_cons in Hv as [->|Hv]; [by left|].
    apply elem_of_cons in Hv as [->|Hv]; [by right|].
    by apply elem_of_nil in Hv. }
  unfold dispatch, mbind, M_bind. cbn [getConfig handler].
  unfold onSelect. cbn [setConfig]. rewrite commit_run. cbn [config].
  destruct st as [[cg bd [en arn name r]] errs sto amp own con].
  unfold region_deps, with_config, selectedOption.
  cbn [config errors localStorage amplify owner console cognito bedrock strands
       strands_enabled strands_lambdaArn strands_agentName strands_region
       set_field].
  generalize (extractRegionFromLambdaArn arn). intros x.
  destruct Hval as [-> | ->];
    [rewrite (bool_decide_eq_false_2 ("bedrock"%string = "strands"%string)) by done
    |rewrite (bool_decide_eq_true_2 ("strands"%string = "strands"%string)) by done];
    cbn [andb]; case_bool_decide as Hd;
    try destruct (truthy_string x);
    (eexists; split; [reflexivity|]);
    cbn [config errors strands strands_enabled fst];
    (split; [reflexivity|]);
    (split; [unfold select_options;
             lazymatch goal with
             | |- ("bedrock"%string, _) ∈ _ => left
             | |- _ => right; left
             end|]);
    (split; [intros f; destruct f; cbn [rendered section_of strands strands_enabled
               negb]; split; intros H; try discriminate H; auto;
             destruct H as [H|H]; discriminate H|]);
    (split; [intros f Hf; by destruct f|]);
    (split; [reflexivity|]);
    destruct en; cbn [fst]; intros Hcur; try discriminate Hcur;
    try reflexivity; congruence.
Qed.

Lemma select_agent_type_witness :
  ∃ st',
    dispatch (Select "strands") (initialState ∅) = Ok ((), st')
    ∧ (selectedOption (config st')).1 = "strands"%string
    ∧ rendered (config st') strands_'lambdaArn = true
    ∧ rendered (config st') bedrock_'agentId = false.
Proof.
  destruct (select_agent_type "strands" (initialState ∅))
    as (st' & Hd & Hs & _ & Hr & _).
  - right. left.
  - exists st'. split; [exact Hd|]. split; [exact Hs|]. split.
    + apply Hr. right. reflexivity.
    + destruct (rendered (config st') bedrock_'agentId) eqn:E; [|reflexivity].
      apply Hr in E. destruct E as [E|E]; discriminate E.
Defined.

(** ** More on the function identifier *)

(** X15.  The region extraction returns a non-empty region exactly for the
    strings made of arn:aws:lambda:, a non-empty region of lowercase
    letters, digits and hyphens, a colon, a non-empty run of digits,
    :function: and a non-empty name without line terminators; the region
    returned is the one of that decomposition. *)
Theorem extract_region_exact (arn region : list N) :
  (extractRegionFromLambdaArn arn = region ∧ region ≠ []) ↔ lambda_arn arn region.
Proof.
  split.
  - intros [<- Hr]. by apply extract_sound.
  - intros H. split; [by apply extract_complete|].
    by destruct H as (account & name & _ & Hr & _).
Qed.

(** X16.  The name of the function is not checked beyond being non-empty
    and on one line: text without line terminators appended to an
    identifier that matches (a version or alias qualifier, say) gives an
    identifier that matches with the same region. *)
Theorem extract_region_suffix (arn suffix : list N) :
  extractRegionFromLambdaArn arn ≠ [] →
  forallb dot suffix = true →
  extractRegionFromLambdaArn (arn ++ suffix) = extractRegionFromLambdaArn arn.
Proof.
  intros Hne Hs. apply extract_sound in Hne.
  destruct Hne as (account & name & Harn & Hr & Hrc & Ha & Hac & Hn & Hnc).
  apply extract_complete. exists account, (name ++ suffix).
  split; [rewrite Harn at 1; by rewrite <- !app_assoc|].
  repeat split; try done.
  - by destruct name.
  - by rewrite forallb_app, Hnc, Hs.
Qed.

Lemma extract_region_suffix_witness :
  extractRegionFromLambdaArn
    (js "arn:aws:lambda:us-west-2:123456789012:function:foo" ++ js ":PROD")
  = extractRegionFromLambdaArn
      (js "arn:aws:lambda:us-west-2:123456789012:function:foo").
Proof.
  apply (extract_region_suffix
           (js "arn:aws:lambda:us-west-2:123456789012:function:foo") (js ":PROD"));
    [vm_compute; discriminate|vm_compute; reflexivity].
Defined.

Lemma region_char_not_trimmed c : region_char c = true → isTrimmed c = false.
Proof.
  unfold region_char, isTrimmed, isWhiteSpace, isLineTerminator. intros H.
  apply not_true_is_false. revert H.
  rewrite !orb_true_iff, !andb_true_iff, !N.leb_le, !N.eqb_eq. lia.
Qed.

Lemma lambda_arn_not_blank arn region :
  lambda_arn arn region → blank arn = false ∧ blank region = false.
Proof.
  intros (account & name & -> & Hr & Hrc & _). split; [done|].
  destruct region as [|c region]; [done|]. cbn in *.
  apply andb_prop in Hrc as [Hc _]. by rewrite (region_char_not_trimmed c Hc).
Qed.

Lemma validation_errors_None c k :
  validation_errors c !! k = None ↔ ¬ is_Some (validation_errors c !! k).
Proof. by rewrite eq_None_not_Some. Qed.

(** X17.  With the strands agent selected, entering a function identifier
    that matches the pattern fills both required fields of the strands
    section: after the edit and its effects, validation has no entry for
    the identifier nor for the region. *)
Theorem matching_identifier_satisfies_strands (st : State) (arn region : list N) :
  strands_enabled (strands (config st)) = true →
  strands_lambdaArn (strands (config st)) ≠ arn →
  lambda_arn arn region →
  ∃ st',
    dispatch (Change strands_'lambdaArn arn) st = Ok ((), st')
    ∧ validation_errors (config st') !! "lambdaArn" = None
    ∧ validation_errors (config st') !! "strandsRegion" = None.
Proof.
  intros Hen Hne Harn. destruct (lambda_arn_not_blank _ _ Harn) as [Hb1 Hb2].
  pose proof (extract_complete _ _ Harn) as Hx.
  unfold dispatch, mbind, M_bind. cbn [getConfig handler].
  unfold onChange, mbind, M_bind.
  cbn [getErrors handleInputChange setConfig setErrors config errors localStorage
       amplify owner console].
  rewrite commit_run. cbn [config].
  rewrite bool_decide_eq_false_2.
  2: { unfold region_deps. cbn [set_field strands strands_lambdaArn]. congruence. }
  cbn [set_field strands strands_lambdaArn strands_enabled]. rewrite Hen, Hx.
  cbn [andb]. destruct region as [|a r]; [done|]. cbn [truthy_string].
  eexists. split; [done|]. unfold with_config. cbn [config].
  rewrite !validation_errors_None, !validation_errors_lookup.
  cbn [set_field strands cognito bedrock strands_enabled strands_lambdaArn
       strands_region].
  rewrite Hb1, Hb2. split; intros H; decompose [and or] H; discriminate.
Qed.

Lemma matching_identifier_satisfies_strands_witness :
  let st := with_config
              {| cognito := cognito sampleConfig; bedrock := bedrock sampleConfig;
                 strands := {| strands_enabled := true; strands_lambdaArn := [];
                               strands_agentName := js "foo";
                               strands_region := [] |} |}
              (initialState ∅) in
  ∃ st',
    dispatch (Change strands_'lambdaArn
                (js "arn:aws:lambda:us-west-2:123456789012:function:foo")) st
    = Ok ((), st')
    ∧ validation_errors (config st') !! "lambdaArn" = None
    ∧ validation_errors (config st') !! "strandsRegion" = None.
Proof.
  intros st.
  apply (matching_identifier_satisfies_strands st
           (js "arn:aws:lambda:us-west-2:123456789012:function:foo")
           (js "us-west-2")).
  - reflexivity.
  - vm_compute. discriminate.
  - exists (js "123456789012"), (js "foo"). by vm_compute.
Defined.

(** ** Saving and coming back *)

(** X18.  After a successful Submit, a fresh mount outside edit mode over
    the storage that Submit left configures the SDK with the very values
    that Submit passed to it, and with nothing else. *)
Theorem save_then_reload (st st1 : State) :
  validateForm st = Ok (true, st1) →
  ∃ st2 st3,
    handleSubmit st = Ok ((), st2)
    ∧ mount false (initialState (localStorage st2)) = Ok ((), st3)
    ∧ amplify st3 = [auth_of (config st)]
    ∧ last (amplify st2) = Some (auth_of (config st))
    ∧ localStorage st3 = localStorage st2
    ∧ config st3 = initialConfig.
Proof.
  intros [He ->]%validateForm_true_iff. eexists. eexists.
  split; [rewrite handleSubmit_run, He; reflexivity|].
  cbn [localStorage amplify]. split.
  - apply mount_run.
    + rewrite (loadEffect_stored _ (config st) false); [reflexivity|].
      cbn [initialState localStorage]. apply lookup_insert_eq.
    + reflexivity.
  - cbn [amplify localStorage config]. repeat split. apply last_snoc.
Qed.

Lemma save_then_reload_witness :
  let st := mkSt sampleConfig ∅ ∅ [] [] [] in
  ∃ st2 st3,
    handleSubmit st = Ok ((), st2)
    ∧ mount false (initialState (localStorage st2)) = Ok ((), st3)
    ∧ amplify st3 = [auth_of sampleConfig]
    ∧ last (amplify st2) = Some (auth_of sampleConfig)
    ∧ localStorage st3 = localStorage st2
    ∧ config st3 = initialConfig.
Proof.
  intros st. apply (save_then_reload st (mkSt sampleConfig ∅ ∅ [] [] [])).
  vm_compute. reflexivity.
Defined.

(** ** More on the preview frame *)

(** X19.  Whatever the sequence of html values, the frame keeps
    sandbox = allow-scripts and its title (the effect only ever assigns
    srcdoc), and its srcdoc is the latest value. *)
Theorem preview_keeps_sandbox (html : list N) (later : list (list N)) :
  ∃ el,
    PreviewIframe.renders html later = Some el
    ∧ PreviewIframe.sandbox el = "allow-scripts"%string
    ∧ PreviewIframe.title el = "Agent HTML Preview"%string
    ∧ PreviewIframe.srcdoc el = Some (List.last later html).
Proof. rewrite renders_last. by eexists. Qed.

(** ** Edits and effects *)

(** X20.  Only the input of the function identifier (and the selector) can
    set the region effect off: an edit of any other field, the strands
    region included, leaves exactly the typed value in that field, clears
    the error of that field and changes nothing else. *)
Theorem edit_sets_exactly_one_field (f : field) (value : list N) (st : State) :
  f ≠ strands_'lambdaArn →
  dispatch (Change f value) st
  = Ok ((), mkSt (set_field f value (config st))
              (<[error_key f := []]> (errors st)) (localStorage st) (amplify st)
              (owner st) (console st)).
Proof.
  intros Hf. unfold dispatch, mbind, M_bind. cbn [getConfig handler].
  unfold onChange, mbind, M_bind.
  cbn [getErrors handleInputChange setConfig setErrors].
  rewrite commit_run. cbn [config].
  rewrite bool_decide_eq_true_2; [done|]. by destruct f.
Qed.

Lemma edit_sets_exactly_one_field_witness :
  let st := with_config
              {| cognito := cognito sampleConfig; bedrock := bedrock sampleConfig;
                 strands := {| strands_enabled := true;
                               strands_lambdaArn := js "not-an-arn";
                               strands_agentName := js "foo";
                               strands_region := [] |} |}
              (initialState ∅) in
  dispatch (Change strands_'region (js "eu-west-1")) st
  = Ok ((), mkSt (set_field strands_'region (js "eu-west-1") (config st))
              (<["strandsRegion" := []]> ∅) ∅ [] [] []).
Proof.
  intros st.
  apply (edit_sets_exactly_one_field strands_'region (js "eu-west-1") st).
  discriminate.
Defined.


